(** * go-tailf: the tail engine, embedded and verified

    A shallow embedding of [tailf.go], [fileidentity.go],
    [fileidentity_windows.go] and the options file of the package.

    The engine talks to three things it does not own: the operating system
    (files, paths), the Go runtime (channels, the context, the clock) and
    [bufio].  They are an interface here, the class [OS], over an abstract
    world [W]: every call threads the world and is recorded, with its answer,
    in a trace of events.  A theorem stated for every instance of [OS] holds
    whatever the file system and the other processes do between two calls.
    [MemFS] is one executable instance: an in-memory file system with a
    script of outside actions, used to run the engine on concrete scenarios. *)

From Stdlib Require Import ZArith Ascii String List Bool Lia.
From stdpp Require Import base option list gmap strings.

Local Open Scope Z_scope.
Local Open Scope string_scope.

(** ** Strings *)

Definition LF : ascii := "010"%char.
Definition CR : ascii := "013"%char.

(** The cut set of [strings.TrimRight(line, "\r\n")]. *)
Definition CRLF : string := String CR (String LF EmptyString).

Definition in_cutset (cutset : string) (c : ascii) : bool :=
  existsb (Ascii.eqb c) (list_ascii_of_string cutset).

(** [strings.TrimRight]: the string without its trailing characters that
    belong to [cutset]. *)
Fixpoint TrimRight (s cutset : string) : string :=
  match s with
  | EmptyString => EmptyString
  | String c s' =>
      match TrimRight s' cutset with
      | EmptyString =>
          if in_cutset cutset c then EmptyString else String c EmptyString
      | t => String c t
      end
  end.

(** [s] ends in the delimiter [d]. *)
Fixpoint ends_in (d : ascii) (s : string) : bool :=
  match s with
  | EmptyString => false
  | String c EmptyString => Ascii.eqb c d
  | String _ s' => ends_in d s'
  end.

(** [s] followed by a line feed. *)
Definition line (s : string) : string := s +:+ String LF EmptyString.

Definition is_empty (s : string) : bool :=
  match s with EmptyString => true | _ => false end.

(** ** Errors *)

Inductive error : Type :=
| io_EOF                                       (* the sentinel io.EOF *)
| Errno (msg : string)                         (* an error of the system *)
| Wrapped (prefix : string) (inner : error).   (* fmt.Errorf(prefix+"%w", inner) *)

Fixpoint Error (e : error) : string :=
  match e with
  | io_EOF => "EOF"
  | Errno m => m
  | Wrapped p i => p +:+ Error i
  end.

Definition Unwrap (e : error) : option error :=
  match e with Wrapped _ i => Some i | _ => None end.

(** [err != io.EOF] compares with the sentinel itself: a wrapped EOF differs. *)
Definition is_EOF (e : error) : bool :=
  match e with io_EOF => true | _ => false end.

(** A call of the system that returns [(value, error)]. *)
Inductive res (A : Type) : Type :=
| Ok (a : A)
| Fail (e : error).
Arguments Ok {A} a.
Arguments Fail {A} e.

(** ** Data model *)

(** [*os.File], [*bufio.Reader] and channels are references. *)
Definition File := nat.
Definition Reader := nat.
Definition Chan := nat.
Definition nil_ptr : nat := 0%nat.
Bind Scope nat_scope with File Reader Chan.

Definition Time := Z.
Definition Duration := Z.
Definition Millisecond : Duration := 1000000.

Inductive Whence := SeekStart | SeekCurrent | SeekEnd.

(** [syscall.Stat_t], the two fields the package reads. *)
Record Stat_t := { Dev : Z; Ino : Z }.

(** [os.FileInfo]: [Size()] and [Sys()]; [Sys] is [None] when the value
    behind the interface is not a [*syscall.Stat_t]. *)
Record FileInfo := { Size : Z; Sys : option Stat_t }.

Record fileIdentity := { dev : Z; ino : Z }.

(** [fileIdentity{}] *)
Definition zeroIdentity : fileIdentity := {| dev := 0; ino := 0 |}.

Definition fileIdentity_eqb (a b : fileIdentity) : bool :=
  Z.eqb (dev a) (dev b) && Z.eqb (ino a) (ino b).

(** The conversion [uint64(x)]. *)
Definition uint64 (x : Z) : Z := x mod 2 ^ 64.

(** [getFileIdentity] exists once per build target. *)
Class Platform := { getFileIdentity : FileInfo -> fileIdentity }.

(** fileidentity.go, [//go:build !windows] *)
Definition getFileIdentity_unix (info : FileInfo) : fileIdentity :=
  match Sys info with
  | None => zeroIdentity
  | Some stat => {| dev := uint64 (Dev stat); ino := uint64 (Ino stat) |}
  end.

(** fileidentity_windows.go, [//go:build windows] *)
Definition getFileIdentity_windows (_ : FileInfo) : fileIdentity :=
  zeroIdentity.

Definition unix : Platform := {| getFileIdentity := getFileIdentity_unix |}.
Definition windows : Platform := {| getFileIdentity := getFileIdentity_windows |}.

Record Line := { Text : string; Time_ : Time }.

Record options := {
  fromStart : bool;
  pollInterval : Duration;
  notify : option Chan;
  bufSize : Z
}.

Definition defaults : options :=
  {| fromStart := false;
     pollInterval := 100 * Millisecond;
     notify := None;
     bufSize := 4096 |}.

(** [type Option func(o *options)] *)
Definition Option := options -> options.

Definition WithFromStart (b : bool) : Option := fun o =>
  {| fromStart := b; pollInterval := pollInterval o;
     notify := notify o; bufSize := bufSize o |}.

Definition WithPollInterval (d : Duration) : Option := fun o =>
  {| fromStart := fromStart o; pollInterval := d;
     notify := notify o; bufSize := bufSize o |}.

(** The argument is a channel value, which may be nil: [None]. *)
Definition WithNotify (ch : option Chan) : Option := fun o =>
  {| fromStart := fromStart o; pollInterval := pollInterval o;
     notify := ch; bufSize := bufSize o |}.

Definition WithBufSize (n : Z) : Option := fun o =>
  {| fromStart := fromStart o; pollInterval := pollInterval o;
     notify := notify o; bufSize := n |}.

(** [Tailer]; the mutex guards [err] against the reader on the other side
    and has no counterpart in a sequential model. *)
Record Tailer := { lines : Chan; err : option error; done : Chan }.

Definition Lines (t : Tailer) : Chan := lines t.
Definition Err (t : Tailer) : option error := err t.
Definition Done (t : Tailer) : Chan := done t.

Definition setErr (t : Tailer) (e : error) : Tailer :=
  {| lines := lines t; err := Some e; done := done t |}.

(** ** The outside world *)

(** One call and its answer. *)
Inductive Event : Type :=
| EvCtxDone (fired : bool)
| EvReadString (r : Reader) (data : string) (e : option error)
| EvReset (r : Reader) (f : File)
| EvNewReader (f : File) (size : Z) (r : Reader)
| EvSeek (f : File) (off : Z) (wh : Whence) (a : res Z)
| EvFStat (f : File) (a : res FileInfo)
| EvClose (f : File)
| EvStat (path : string) (a : res FileInfo)
| EvOpen (path : string) (a : res File)
| EvWait (notify : option Chan) (d : Duration)
| EvNow (now : Time)
| EvSend (ch : Chan) (l : Line) (sent : bool)
| EvMakeChan (cap : nat) (ch : Chan)
| EvCloseChan (ch : Chan)
| EvGo.

(** What the engine needs from its surroundings.  [ctx_Done] is the
    non-blocking [select] on [ctx.Done()] with a [default] branch;
    [chan_send] is the [select] between [t.lines <- l] and [ctx.Done()],
    [true] when the line was sent; [wait_any] is the [select] of
    [waitForData].  The last field is the contract of
    [bufio.Reader.ReadString]: the error is nil if and only if the data
    ends in the delimiter. *)
Class OS (W : Type) := {
  ctx_Done : W -> bool * W;
  reader_ReadString : Reader -> ascii -> W -> (string * option error) * W;
  reader_Reset : Reader -> File -> W -> W;
  bufio_NewReaderSize : File -> Z -> W -> Reader * W;
  file_Seek : File -> Z -> Whence -> W -> res Z * W;
  file_Stat : File -> W -> res FileInfo * W;
  file_Close : File -> W -> W;
  os_Stat : string -> W -> res FileInfo * W;
  os_Open : string -> W -> res File * W;
  wait_any : option Chan -> Duration -> W -> W;
  time_Now : W -> Time * W;
  chan_send : Chan -> Line -> W -> bool * W;
  make_chan : nat -> W -> Chan * W;
  close_chan : Chan -> W -> W;
  ReadString_delim : forall r d w,
    (reader_ReadString r d w).1.2 = None <->
    ends_in d (reader_ReadString r d w).1.1 = true
}.

(** ** The monad of the engine: world passing, with the trace written out *)

Section Engine.
Context {W : Type} {os : OS W} {pf : Platform}.

Definition M (A : Type) : Type := W -> A * W * list Event.

Definition ret {A} (a : A) : M A := fun w => (a, w, []).

Definition bind {A B} (m : M A) (k : A -> M B) : M B := fun w =>
  let '(a, w1, e1) := m w in
  let '(b, w2, e2) := k a w1 in
  (b, w2, (e1 ++ e2)%list).

Notation "'let*' x ':=' m 'in' k" := (bind m (fun x => k))
  (at level 10, x pattern, m at level 200, k at level 200).
Notation "m ;; k" := (bind m (fun _ => k))
  (at level 100, right associativity).

Definition ctxDone : M bool := fun w =>
  let '(b, w') := ctx_Done w in (b, w', [EvCtxDone b]).

Definition ReadString (r : Reader) (delim : ascii) : M (string * option error) :=
  fun w =>
    let '((data, e), w') := reader_ReadString r delim w in
    ((data, e), w', [EvReadString r data e]).

Definition Reset (r : Reader) (f : File) : M unit := fun w =>
  (tt, reader_Reset r f w, [EvReset r f]).

Definition NewReaderSize (f : File) (size : Z) : M Reader := fun w =>
  let '(r, w') := bufio_NewReaderSize f size w in (r, w', [EvNewReader f size r]).

(** [bufio.NewReader] is [NewReaderSize] with the default size. *)
Definition NewReader (f : File) : M Reader := NewReaderSize f 4096.

Definition Seek (f : File) (off : Z) (wh : Whence) : M (res Z) := fun w =>
  let '(a, w') := file_Seek f off wh w in (a, w', [EvSeek f off wh a]).

Definition Stat (f : File) : M (res FileInfo) := fun w =>
  let '(a, w') := file_Stat f w in (a, w', [EvFStat f a]).

Definition Close (f : File) : M unit := fun w =>
  (tt, file_Close f w, [EvClose f]).

Definition osStat (path : string) : M (res FileInfo) := fun w =>
  let '(a, w') := os_Stat path w in (a, w', [EvStat path a]).

Definition osOpen (path : string) : M (res File) := fun w =>
  let '(a, w') := os_Open path w in (a, w', [EvOpen path a]).

Definition waitAny (n : option Chan) (d : Duration) : M unit := fun w =>
  (tt, wait_any n d w, [EvWait n d]).

Definition Now : M Time := fun w =>
  let '(t, w') := time_Now w in (t, w', [EvNow t]).

Definition send (ch : Chan) (l : Line) : M bool := fun w =>
  let '(b, w') := chan_send ch l w in (b, w', [EvSend ch l b]).

Definition makeChan (cap : nat) : M Chan := fun w =>
  let '(c, w') := make_chan cap w in (c, w', [EvMakeChan cap c]).

Definition closeChan (ch : Chan) : M unit := fun w =>
  (tt, close_chan ch w, [EvCloseChan ch]).

Definition go : M unit := fun w => (tt, w, [EvGo]).

(** ** tailf.go *)

(** What [checkFileState] returns: the file, the reader, the identity,
    [reopened] and the error. *)
Definition CheckResult : Type :=
  File * Reader * fileIdentity * bool * option error.

Definition checkFileState (file : File) (reader : Reader)
    (fileID : fileIdentity) (path : string) : M CheckResult :=
  (* Check truncation: current position beyond file size. *)
  let* r := Seek file 0 SeekCurrent in
  match r with
  | Fail e => ret (file, reader, fileID, false, Some (Wrapped "seek error: " e))
  | Ok currentPos =>
  let* r := Stat file in
  match r with
  | Fail e => ret (file, reader, fileID, false, Some (Wrapped "stat error: " e))
  | Ok stat =>
  if Z.ltb (Size stat) currentPos then
    (* File was truncated. Seek to start. *)
    let* r := Seek file 0 SeekStart in
    match r with
    | Fail e =>
        ret (file, reader, fileID, false,
             Some (Wrapped "seek after truncation: " e))
    | Ok _ =>
        Reset reader file ;;
        ret (file, reader, fileID, false, None)
    end
  else
  (* Check rotation: file at path has a different inode. *)
  let* r := osStat path in
  match r with
  | Fail _ =>
      (* Not fatal: retried on the next poll. *)
      ret (file, reader, fileID, false, None)
  | Ok pathInfo =>
  let newID := getFileIdentity pathInfo in
  if negb (fileIdentity_eqb newID fileID)
     && negb (fileIdentity_eqb newID zeroIdentity) then
    (* File was rotated. Open the new file. *)
    let* r := osOpen path in
    match r with
    | Fail _ => ret (file, reader, fileID, false, None)
    | Ok newFile =>
        Close file ;;
        let* newReader := NewReader newFile in
        let* r := Stat newFile in
        match r with
        | Fail e =>
            Close newFile ;;
            ret (file, reader, fileID, false,
                 Some (Wrapped "stat new file: " e))
        | Ok newInfo =>
            ret (newFile, newReader, getFileIdentity newInfo, true, None)
        end
    end
  else ret (file, reader, fileID, false, None)
  end end end.

(** [waitForData]: both branches arm a timer of [pollInterval] and select
    on it and on [ctx.Done()], the first one also on the notify channel. *)
Definition waitForData (o : options) : M unit :=
  match notify o with
  | Some ch => waitAny (Some ch) (pollInterval o)
  | None => waitAny None (pollInterval o)
  end.

(** The variables of [tailLoop] that change from one iteration to the next. *)
Record LoopVars := {
  file : File;
  reader : Reader;
  fileID : fileIdentity;
  partialLine : string
}.

(** One pass through the body of the [for] of [tailLoop]: [inl] is the
    state at the next iteration, [inr] the value of a [return]. *)
Definition iteration (t : Tailer) (path : string) (o : options)
    (v : LoopVars) : M (LoopVars + option error) :=
  let* cancelled := ctxDone in
  if cancelled : bool then ret (inr None) else
  let* (line, e) := ReadString (reader v) LF in
  match e with
  | Some e =>
      if negb (is_EOF e) then ret (inr (Some (Wrapped "read error: " e)))
      else
        (* EOF: buffer any partial data and check for truncation/rotation. *)
        let partialLine := partialLine v +:+ line in
        let* (file, reader, fileID, reopened, e) :=
            checkFileState (file v) (reader v) (fileID v) path in
        match e with
        | Some e => ret (inr (Some e))
        | None =>
            let partialLine := if reopened : bool then EmptyString else partialLine in
            (* Reset reader to drop cached EOF so new data is visible. *)
            (if negb reopened then Reset reader file else ret tt) ;;
            waitForData o ;;
            ret (inl {| file := file; reader := reader; fileID := fileID;
                        partialLine := partialLine |})
        end
  | None =>
      (* Complete line received. *)
      let '(line, partialLine) :=
        if negb (is_empty (partialLine v))
        then (partialLine v +:+ line, EmptyString)
        else (line, partialLine v) in
      let line := TrimRight line CRLF in
      let next := {| file := file v; reader := reader v; fileID := fileID v;
                     partialLine := partialLine |} in
      if is_empty line then ret (inl next)
      else
        let* now := Now in
        let l := {| Text := line; Time_ := now |} in
        let* sent := send (lines t) l in
        if sent : bool then ret (inl next) else ret (inr None)
  end.

(** The [for] loop, at most [n] iterations of it: [inl] when the loop is
    still running after [n] iterations, [inr] when it has returned. *)
Fixpoint loop (n : nat) (t : Tailer) (path : string) (o : options)
    (v : LoopVars) : M (LoopVars + option error) :=
  match n with
  | O => ret (inl v)
  | S n' =>
      let* r := iteration t path o v in
      match r with
      | inl v' => loop n' t path o v'
      | inr e => ret (inr e)
      end
  end.

Definition tailLoop (n : nat) (t : Tailer) (file : File) (reader : Reader)
    (fileID : fileIdentity) (path : string) (o : options)
    : M (LoopVars + option error) :=
  loop n t path o
    {| file := file; reader := reader; fileID := fileID; partialLine := EmptyString |}.

(** [openFile] returns the file, the reader, the identity and the error. *)
Definition openFile (path : string) (o : options)
    : M (File * Reader * fileIdentity * option error) :=
  let* r := osOpen path in
  match r with
  | Fail e => ret (nil_ptr, nil_ptr, zeroIdentity, Some e)
  | Ok file =>
  let* r := (if negb (fromStart o) then Seek file 0 SeekEnd else ret (Ok 0)) in
  match r with
  | Fail e => Close file ;; ret (nil_ptr, nil_ptr, zeroIdentity, Some e)
  | Ok _ =>
  let* r := Stat file in
  match r with
  | Fail e => Close file ;; ret (nil_ptr, nil_ptr, zeroIdentity, Some e)
  | Ok info =>
      let* reader := NewReaderSize file (bufSize o) in
      ret (file, reader, getFileIdentity info, None)
  end end end.

(** The function literal started by [go] in [Follow], run for at most [n]
    iterations of the loop.  The three deferred calls run when [tailLoop]
    has returned, last deferred first; the receiver of the deferred
    [file.Close()] is the variable [file] of [Follow].  [None]: the loop is
    still running, nothing deferred has run. *)
Definition followTask (t : Tailer) (file : File) (reader : Reader)
    (fileID : fileIdentity) (path : string) (o : options) (n : nat)
    : M (option Tailer) :=
  let* r := tailLoop n t file reader fileID path o in
  match r with
  | inl _ => ret None
  | inr e =>
      let t := match e with Some e => setErr t e | None => t end in
      Close file ;;
      closeChan (lines t) ;;
      closeChan (done t) ;;
      ret (Some t)
  end.

(** What [Follow] hands back: its two results and the task it has started,
    if any. *)
Record Followed := {
  tailer : option Tailer;
  failure : option error;
  started : option (nat -> M (option Tailer))
}.

Definition Follow (path : string) (opts : list Option) : M Followed :=
  let o := fold_left (fun o (opt : Option) => opt o) opts defaults in
  let* (file, reader, fileID, e) := openFile path o in
  match e with
  | Some e =>
      ret {| tailer := None; failure := Some (Wrapped "tailf: " e);
             started := None |}
  | None =>
      let* lines := makeChan 64 in
      let* done := makeChan 0 in
      let t := {| lines := lines; err := None; done := done |} in
      go ;;
      ret {| tailer := Some t; failure := None;
             started := Some (followTask t file reader fileID path o) |}
  end.

End Engine.

(** ** Reading a trace *)

(** The bytes that have been read from the current reader since the last
    terminator, [acc] being those read before the trace starts: a read
    that ends in the terminator empties them, a read without terminator
    adds to them, and a new reader starts afresh. *)
Fixpoint read_since_terminator (acc : string) (evs : list Event) : string :=
  match evs with
  | [] => acc
  | EvReadString _ _ None :: evs' => read_since_terminator EmptyString evs'
  | EvReadString _ data (Some _) :: evs' =>
      read_since_terminator (acc +:+ data) evs'
  | EvNewReader _ _ _ :: evs' => read_since_terminator EmptyString evs'
  | _ :: evs' => read_since_terminator acc evs'
  end.

Definition is_send (e : Event) : bool :=
  match e with EvSend _ _ _ => true | _ => false end.

(** The event is an observation of the cancellation: the check of
    [ctx.Done()] before a read that fired, or the [select] around the send
    that took the branch of [ctx.Done()]. *)
Definition is_cancel (e : Event) : bool :=
  match e with
  | EvCtxDone true => true
  | EvSend _ _ false => true
  | _ => false
  end.

(** The last call of the trace observed the cancellation. *)
Definition cancel_observed (evs : list Event) : Prop :=
  exists c, last evs = Some c /\ is_cancel c = true.

(** The send of [l] that follows [pre] is the line assembled from the
    reads of [pre]: [pre] ends with a read that returned a terminated
    segment and the reading of the clock, and the text is what was pending
    before that read, then the segment, without the trailing CR and LF. *)
Definition assembled (acc : string) (pre : list Event) (l : Line) : Prop :=
  exists pre' rd seg,
    pre = (pre' ++ [EvReadString rd seg None; EvNow (Time_ l)])%list /\
    ends_in LF seg = true /\
    Text l = TrimRight (read_since_terminator acc pre' +:+ seg) CRLF /\
    Text l <> EmptyString.

(** Every send of the trace is an assembled line. *)
Definition sends_assembled (acc : string) (evs : list Event) : Prop :=
  forall pre ch l sent post,
    evs = (pre ++ EvSend ch l sent :: post)%list -> assembled acc pre l.

(** The file at the path is another file, and a known one: the test that
    guards the reopening in [checkFileState]. *)
Definition rotated {pf : Platform} (pathInfo : FileInfo) (fileID : fileIdentity) : Prop :=
  getFileIdentity pathInfo <> fileID /\ getFileIdentity pathInfo <> zeroIdentity.

(** The path could not be resolved, or the file it now names could not be
    opened. *)
Definition transient (path : string) (evs : list Event) : Prop :=
  exists e, In (EvStat path (Fail e)) evs \/ In (EvOpen path (Fail e)) evs.

(** The eight ways through [checkFileState], one per [return]: the calls
    made, in order, and the values returned. *)
Inductive check_outcome {pf : Platform} (f : File) (r : Reader)
    (id : fileIdentity) (path : string) : list Event -> CheckResult -> Prop :=
| co_seek_fail e :
    check_outcome f r id path
      [EvSeek f 0 SeekCurrent (Fail e)]
      (f, r, id, false, Some (Wrapped "seek error: " e))
| co_stat_fail pos e :
    check_outcome f r id path
      [EvSeek f 0 SeekCurrent (Ok pos); EvFStat f (Fail e)]
      (f, r, id, false, Some (Wrapped "stat error: " e))
| co_truncated_fail pos st e :
    Size st < pos ->
    check_outcome f r id path
      [EvSeek f 0 SeekCurrent (Ok pos); EvFStat f (Ok st);
       EvSeek f 0 SeekStart (Fail e)]
      (f, r, id, false, Some (Wrapped "seek after truncation: " e))
| co_truncated pos st p0 :
    Size st < pos ->
    check_outcome f r id path
      [EvSeek f 0 SeekCurrent (Ok pos); EvFStat f (Ok st);
       EvSeek f 0 SeekStart (Ok p0); EvReset r f]
      (f, r, id, false, None)
| co_path_missing pos st e :
    pos <= Size st ->
    check_outcome f r id path
      [EvSeek f 0 SeekCurrent (Ok pos); EvFStat f (Ok st);
       EvStat path (Fail e)]
      (f, r, id, false, None)
| co_unchanged pos st info :
    pos <= Size st -> ~ rotated info id ->
    check_outcome f r id path
      [EvSeek f 0 SeekCurrent (Ok pos); EvFStat f (Ok st);
       EvStat path (Ok info)]
      (f, r, id, false, None)
| co_open_fail pos st info e :
    pos <= Size st -> rotated info id ->
    check_outcome f r id path
      [EvSeek f 0 SeekCurrent (Ok pos); EvFStat f (Ok st);
       EvStat path (Ok info); EvOpen path (Fail e)]
      (f, r, id, false, None)
| co_new_stat_fail pos st info newFile newReader e :
    pos <= Size st -> rotated info id ->
    check_outcome f r id path
      [EvSeek f 0 SeekCurrent (Ok pos); EvFStat f (Ok st);
       EvStat path (Ok info); EvOpen path (Ok newFile); EvClose f;
       EvNewReader newFile 4096 newReader; EvFStat newFile (Fail e);
       EvClose newFile]
      (f, r, id, false, Some (Wrapped "stat new file: " e))
| co_reopened pos st info newFile newReader newInfo :
    pos <= Size st -> rotated info id ->
    check_outcome f r id path
      [EvSeek f 0 SeekCurrent (Ok pos); EvFStat f (Ok st);
       EvStat path (Ok info); EvOpen path (Ok newFile); EvClose f;
       EvNewReader newFile 4096 newReader; EvFStat newFile (Ok newInfo)]
      (newFile, newReader, getFileIdentity newInfo, true, None).

(** The ways through one iteration of the loop of [tailLoop]. *)
Inductive iter_outcome {pf : Platform} (t : Tailer) (path : string)
    (o : options) (v : LoopVars)
    : list Event -> LoopVars + option error -> Prop :=
| io_cancelled :
    iter_outcome t path o v [EvCtxDone true] (inr None)
| io_read_error seg e :
    is_EOF e = false -> ends_in LF seg = false ->
    iter_outcome t path o v
      [EvCtxDone false; EvReadString (reader v) seg (Some e)]
      (inr (Some (Wrapped "read error: " e)))
| io_check_error seg cevs f r id b e :
    ends_in LF seg = false ->
    check_outcome (file v) (reader v) (fileID v) path cevs (f, r, id, b, Some e) ->
    iter_outcome t path o v
      ([EvCtxDone false; EvReadString (reader v) seg (Some io_EOF)] ++ cevs)%list
      (inr (Some e))
| io_eof seg cevs f r id :
    ends_in LF seg = false ->
    check_outcome (file v) (reader v) (fileID v) path cevs (f, r, id, false, None) ->
    iter_outcome t path o v
      ([EvCtxDone false; EvReadString (reader v) seg (Some io_EOF)] ++ cevs
        ++ [EvReset r f; EvWait (notify o) (pollInterval o)])%list
      (inl {| file := f; reader := r; fileID := id;
              partialLine := partialLine v +:+ seg |})
| io_eof_reopened seg cevs f r id :
    ends_in LF seg = false ->
    check_outcome (file v) (reader v) (fileID v) path cevs (f, r, id, true, None) ->
    iter_outcome t path o v
      ([EvCtxDone false; EvReadString (reader v) seg (Some io_EOF)] ++ cevs
        ++ [EvWait (notify o) (pollInterval o)])%list
      (inl {| file := f; reader := r; fileID := id; partialLine := EmptyString |})
| io_empty_line seg :
    ends_in LF seg = true ->
    TrimRight (partialLine v +:+ seg) CRLF = EmptyString ->
    iter_outcome t path o v
      [EvCtxDone false; EvReadString (reader v) seg None]
      (inl {| file := file v; reader := reader v; fileID := fileID v;
              partialLine := EmptyString |})
| io_line seg now sent :
    ends_in LF seg = true ->
    TrimRight (partialLine v +:+ seg) CRLF <> EmptyString ->
    iter_outcome t path o v
      [EvCtxDone false; EvReadString (reader v) seg None; EvNow now;
       EvSend (lines t)
         {| Text := TrimRight (partialLine v +:+ seg) CRLF; Time_ := now |}
         sent]
      (if sent then
         inl {| file := file v; reader := reader v; fileID := fileID v;
                partialLine := EmptyString |}
       else inr None).

(** The options of [Follow], applied in order to the defaults. *)
Definition applied (opts : list Option) : options :=
  fold_left (fun o (opt : Option) => opt o) opts defaults.

(** The texts of the lines handed to the channel, sent or not. *)
Fixpoint offered (evs : list Event) : list string :=
  match evs with
  | [] => []
  | EvSend _ l _ :: evs' => Text l :: offered evs'
  | _ :: evs' => offered evs'
  end.

(** The lines that the reads of a trace complete, in order, [acc] being
    pending when the trace starts: each read that ends in the terminator
    completes what is pending followed by its segment, without the trailing
    CR and LF, and counts unless that text is empty. *)
Fixpoint completed (acc : string) (evs : list Event) : list string :=
  match evs with
  | [] => []
  | EvReadString _ seg None :: evs' =>
      let text := TrimRight (acc +:+ seg) CRLF in
      ((if is_empty text then [] else [text]) ++ completed EmptyString evs')%list
  | EvReadString _ seg (Some _) :: evs' => completed (acc +:+ seg) evs'
  | EvNewReader _ _ _ :: evs' => completed EmptyString evs'
  | _ :: evs' => completed acc evs'
  end.

(** A read that met the end of the file owes a wait before the next read:
    [owed] tells whether one is owed when the trace starts. *)
Fixpoint waits_after_eof (owed : bool) (evs : list Event) : bool :=
  match evs with
  | [] => true
  | EvReadString _ _ e :: evs' =>
      negb owed &&
      waits_after_eof (match e with Some io_EOF => true | _ => false end) evs'
  | EvWait _ _ :: evs' => waits_after_eof false evs'
  | _ :: evs' => waits_after_eof owed evs'
  end.

Definition is_read (e : Event) : bool :=
  match e with EvReadString _ _ _ => true | _ => false end.

(** Whether a wait is owed at the end of a trace. *)
Fixpoint owed_after (owed : bool) (evs : list Event) : bool :=
  match evs with
  | [] => owed
  | EvReadString _ _ e :: evs' =>
      owed_after (match e with Some io_EOF => true | _ => false end) evs'
  | EvWait _ _ :: evs' => owed_after false evs'
  | _ :: evs' => owed_after owed evs'
  end.

(** The event is no wait, or the wait that the options ask for. *)
Definition waits_as (o : options) (e : Event) : bool :=
  match e with
  | EvWait n d =>
      Z.eqb d (pollInterval o) &&
      match n, notify o with
      | Some c, Some c' => Nat.eqb c c'
      | None, None => true
      | _, _ => false
      end
  | _ => true
  end.

(** The event makes no reader, or a reader of [size] bytes. *)
Definition reader_sized (size : Z) (e : Event) : bool :=
  match e with
  | EvNewReader _ s _ => Z.eqb s size
  | _ => true
  end.

Definition is_open (e : Event) : bool :=
  match e with EvOpen _ _ => true | _ => false end.

(** Every character of [s] is in [cutset]. *)
Definition all_in (cutset s : string) : bool :=
  forallb (in_cutset cutset) (list_ascii_of_string s).

(** The calls of an iteration that come before the open of the path. *)
Definition before_open (path : string) (pre : list Event) : Prop :=
  exists pre' rd seg g pos st info,
    pre = (pre' ++ [EvCtxDone false; EvReadString rd seg (Some io_EOF);
                    EvSeek g 0 SeekCurrent (Ok pos); EvFStat g (Ok st);
                    EvStat path (Ok info)])%list /\
    pos <= Size st.

(** What the loop may do with channels and tasks: send on [ch], and
    nothing else. *)
Definition only_sends_on (ch : Chan) (e : Event) : bool :=
  match e with
  | EvSend c _ _ => Nat.eqb c ch
  | EvMakeChan _ _ | EvCloseChan _ | EvGo => false
  | _ => true
  end.

(** The prefixes of the errors that [tailLoop] returns. *)
Definition loop_error_prefixes : list string :=
  ["read error: "; "seek error: "; "stat error: ";
   "seek after truncation: "; "stat new file: "].

(** The runs of the loop of [tailLoop], by the outcomes of its iterations. *)
Inductive loop_outcome {pf : Platform} (t : Tailer) (path : string)
    (o : options) : LoopVars -> list Event -> LoopVars + option error -> Prop :=
| lo_running v :
    loop_outcome t path o v [] (inl v)
| lo_returned v evs e :
    iter_outcome t path o v evs (inr e) ->
    loop_outcome t path o v evs (inr e)
| lo_next v evs v' evs' res :
    iter_outcome t path o v evs (inl v') ->
    loop_outcome t path o v' evs' res ->
    loop_outcome t path o v (evs ++ evs')%list res.

(** * An executable world: files in memory, other processes by script *)

Module MemFS.

(** The first line of [s], with its delimiter, and what follows it. *)
Fixpoint cut (d : ascii) (s : string) : option (string * string) :=
  match s with
  | EmptyString => None
  | String c s' =>
      if Ascii.eqb c d then Some (String c EmptyString, s')
      else match cut d s' with
           | Some (l, rest) => Some (String c l, rest)
           | None => None
           end
  end.

Fixpoint skip (n : nat) (s : string) : string :=
  match n, s with
  | O, _ => s
  | S n', String _ s' => skip n' s'
  | S _, EmptyString => EmptyString
  end.

(** A file of the disk: it lives as long as a name or a handle refers to it. *)
Record Node := { content : string; meta : option Stat_t; readable : bool }.

(** An open file: the node behind it and the offset of the next read. *)
Record Handle := { node : nat; pos : Z; closed : bool }.

(** A [bufio.Reader]: its source and the bytes read ahead. *)
Record Buffered := { src : File; buf : string }.

Record Queue := { cap : nat; queue : list Line; shut : bool }.

(** What other processes do while the engine waits. *)
Inductive Outside :=
| Append (path data : string)
| Truncate (path : string)
| Rename (old new : string)
| Create (path : string) (m : option Stat_t) (rd : bool)
| Remove (path : string)
| Cancel.

Record World := {
  nodes : gmap nat Node;
  names : gmap string nat;
  handles : gmap nat Handle;
  readers : gmap nat Buffered;
  chans : gmap nat Queue;
  cancelled : bool;
  clock : Z;
  script : list (list Outside);
  fresh : nat
}.

Definition with_nodes (x : gmap nat Node) (w : World) : World :=
  {| nodes := x; names := names w; handles := handles w; readers := readers w;
     chans := chans w; cancelled := cancelled w; clock := clock w;
     script := script w; fresh := fresh w |}.
Definition with_names (x : gmap string nat) (w : World) : World :=
  {| nodes := nodes w; names := x; handles := handles w; readers := readers w;
     chans := chans w; cancelled := cancelled w; clock := clock w;
     script := script w; fresh := fresh w |}.
Definition with_handles (x : gmap nat Handle) (w : World) : World :=
  {| nodes := nodes w; names := names w; handles := x; readers := readers w;
     chans := chans w; cancelled := cancelled w; clock := clock w;
     script := script w; fresh := fresh w |}.
Definition with_readers (x : gmap nat Buffered) (w : World) : World :=
  {| nodes := nodes w; names := names w; handles := handles w; readers := x;
     chans := chans w; cancelled := cancelled w; clock := clock w;
     script := script w; fresh := fresh w |}.
Definition with_chans (x : gmap nat Queue) (w : World) : World :=
  {| nodes := nodes w; names := names w; handles := handles w;
     readers := readers w; chans := x; cancelled := cancelled w;
     clock := clock w; script := script w; fresh := fresh w |}.
Definition with_cancelled (x : bool) (w : World) : World :=
  {| nodes := nodes w; names := names w; handles := handles w;
     readers := readers w; chans := chans w; cancelled := x;
     clock := clock w; script := script w; fresh := fresh w |}.
Definition with_clock (x : Z) (w : World) : World :=
  {| nodes := nodes w; names := names w; handles := handles w;
     readers := readers w; chans := chans w; cancelled := cancelled w;
     clock := x; script := script w; fresh := fresh w |}.
Definition with_script (x : list (list Outside)) (w : World) : World :=
  {| nodes := nodes w; names := names w; handles := handles w;
     readers := readers w; chans := chans w; cancelled := cancelled w;
     clock := clock w; script := x; fresh := fresh w |}.
Definition with_fresh (x : nat) (w : World) : World :=
  {| nodes := nodes w; names := names w; handles := handles w;
     readers := readers w; chans := chans w; cancelled := cancelled w;
     clock := clock w; script := script w; fresh := x |}.

Definition size_of (n : Node) : Z := Z.of_nat (String.length (content n)).

Definition info_of (n : Node) : FileInfo :=
  {| Size := size_of n; Sys := meta n |}.

(** The open handle behind [f] and its node. *)
Definition lookup_open (f : File) (w : World) : option (Handle * Node) :=
  match handles w !! f with
  | Some h =>
      if closed h then None
      else match nodes w !! node h with
           | Some n => Some (h, n)
           | None => None
           end
  | None => None
  end.

Definition ErrClosed : error := Errno "file already closed".
Definition ENOENT : error := Errno "no such file or directory".
Definition EACCES : error := Errno "permission denied".
Definition EINVAL : error := Errno "invalid argument".

Definition ctxDone (w : World) : bool * World := (cancelled w, w).

(** [ReadString]: a line that is read ahead is returned without a read of
    the file; otherwise one read takes all that the file holds from the
    offset on (nothing when the offset is beyond the end), and the line,
    or everything with [io.EOF], is returned. *)
Definition ReadString (r : Reader) (d : ascii) (w : World)
    : (string * option error) * World :=
  match readers w !! r with
  | None => ((EmptyString, Some ErrClosed), w)
  | Some b =>
      match cut d (buf b) with
      | Some (l, rest) =>
          ((l, None),
           with_readers (<[r := {| src := src b; buf := rest |}]> (readers w)) w)
      | None =>
          match lookup_open (src b) w with
          | None =>
              ((buf b, Some ErrClosed),
               with_readers (<[r := {| src := src b; buf := EmptyString |}]> (readers w)) w)
          | Some (h, n) =>
              let chunk := skip (Z.to_nat (pos h)) (content n) in
              let h' := {| node := node h;
                           pos := pos h + Z.of_nat (String.length chunk);
                           closed := false |} in
              let w := with_handles (<[src b := h']> (handles w)) w in
              match cut d (buf b +:+ chunk) with
              | Some (l, rest) =>
                  ((l, None),
                   with_readers
                     (<[r := {| src := src b; buf := rest |}]> (readers w)) w)
              | None =>
                  ((buf b +:+ chunk, Some io_EOF),
                   with_readers
                     (<[r := {| src := src b; buf := EmptyString |}]> (readers w)) w)
              end
          end
      end
  end.

Definition Reset (r : Reader) (f : File) (w : World) : World :=
  with_readers (<[r := {| src := f; buf := EmptyString |}]> (readers w)) w.

Definition NewReaderSize (f : File) (_ : Z) (w : World) : Reader * World :=
  (fresh w,
   with_fresh (S (fresh w))
     (with_readers (<[fresh w := {| src := f; buf := EmptyString |}]> (readers w)) w)).

Definition Seek (f : File) (off : Z) (wh : Whence) (w : World) : res Z * World :=
  match lookup_open f w with
  | None => (Fail ErrClosed, w)
  | Some (h, n) =>
      let target :=
        match wh with
        | SeekStart => off
        | SeekCurrent => pos h + off
        | SeekEnd => size_of n + off
        end in
      if Z.ltb target 0 then (Fail EINVAL, w)
      else (Ok target,
            with_handles
              (<[f := {| node := node h; pos := target; closed := false |}]>
                 (handles w)) w)
  end.

Definition Stat (f : File) (w : World) : res FileInfo * World :=
  match lookup_open f w with
  | None => (Fail ErrClosed, w)
  | Some (_, n) => (Ok (info_of n), w)
  end.

Definition Close (f : File) (w : World) : World :=
  match handles w !! f with
  | Some h =>
      with_handles
        (<[f := {| node := node h; pos := pos h; closed := true |}]> (handles w)) w
  | None => w
  end.

Definition osStat (path : string) (w : World) : res FileInfo * World :=
  match names w !! path with
  | Some i =>
      match nodes w !! i with
      | Some n => (Ok (info_of n), w)
      | None => (Fail ENOENT, w)
      end
  | None => (Fail ENOENT, w)
  end.

Definition osOpen (path : string) (w : World) : res File * World :=
  match names w !! path with
  | Some i =>
      match nodes w !! i with
      | Some n =>
          if readable n then
            (Ok (fresh w),
             with_fresh (S (fresh w))
               (with_handles
                  (<[fresh w := {| node := i; pos := 0; closed := false |}]>
                     (handles w)) w))
          else (Fail EACCES, w)
      | None => (Fail ENOENT, w)
      end
  | None => (Fail ENOENT, w)
  end.

Definition act (w : World) (a : Outside) : World :=
  match a with
  | Append path data =>
      match names w !! path with
      | Some i =>
          match nodes w !! i with
          | Some n =>
              with_nodes
                (<[i := {| content := content n +:+ data; meta := meta n;
                           readable := readable n |}]> (nodes w)) w
          | None => w
          end
      | None => w
      end
  | Truncate path =>
      match names w !! path with
      | Some i =>
          match nodes w !! i with
          | Some n =>
              with_nodes
                (<[i := {| content := EmptyString; meta := meta n;
                           readable := readable n |}]> (nodes w)) w
          | None => w
          end
      | None => w
      end
  | Rename old new =>
      match names w !! old with
      | Some i => with_names (<[new := i]> (delete old (names w))) w
      | None => w
      end
  | Create path m rd =>
      with_fresh (S (fresh w))
        (with_names (<[path := fresh w]> (names w))
           (with_nodes
              (<[fresh w := {| content := EmptyString; meta := m; readable := rd |}]>
                 (nodes w)) w))
  | Remove path => with_names (delete path (names w)) w
  | Cancel => with_cancelled true w
  end.

(** The wait ends when the others have made the next moves of the script. *)
Definition wait (_ : option Chan) (_ : Duration) (w : World) : World :=
  match script w with
  | [] => w
  | acts :: rest => fold_left act acts (with_script rest w)
  end.

Definition now (w : World) : Time * World :=
  (clock w, with_clock (clock w + 1) w).

(** Nobody receives here: a send finds room in the buffer of the
    channel, or it blocks until the context is cancelled. *)
Definition chanSend (ch : Chan) (l : Line) (w : World) : bool * World :=
  match chans w !! ch with
  | Some q =>
      if Nat.ltb (length (queue q)) (cap q) then
        (true,
         with_chans
           (<[ch := {| cap := cap q; queue := (queue q ++ [l])%list;
                       shut := shut q |}]> (chans w)) w)
      else (false, with_cancelled true w)
  | None => (false, with_cancelled true w)
  end.

Definition makeChan (c : nat) (w : World) : Chan * World :=
  (fresh w,
   with_fresh (S (fresh w))
     (with_chans (<[fresh w := {| cap := c; queue := []; shut := false |}]>
                    (chans w)) w)).

Definition closeChan (ch : Chan) (w : World) : World :=
  match chans w !! ch with
  | Some q =>
      with_chans
        (<[ch := {| cap := cap q; queue := queue q; shut := true |}]> (chans w)) w
  | None => w
  end.

Lemma cut_ends d s l rest : cut d s = Some (l, rest) -> ends_in d l = true.
Proof.
  revert l rest. induction s as [|c s IH]; simpl; intros l rest H; [discriminate|].
  destruct (Ascii.eqb c d) eqn:E.
  - injection H as <- _. simpl. exact E.
  - destruct (cut d s) as [[l' rest']|] eqn:C; [|discriminate].
    injection H as <- _. specialize (IH _ _ eq_refl).
    simpl. destruct l'; [discriminate IH | exact IH].
Qed.

Lemma cut_none d s : cut d s = None -> ends_in d s = false.
Proof.
  induction s as [|c s IH]; simpl; intros H; [reflexivity|].
  destruct (Ascii.eqb c d) eqn:E; [discriminate|].
  destruct (cut d s) as [[l' rest']|] eqn:C; [discriminate|].
  specialize (IH eq_refl). destruct s; [reflexivity | exact IH].
Qed.

Lemma ReadString_ends r d w :
  (ReadString r d w).1.2 = None <-> ends_in d (ReadString r d w).1.1 = true.
Proof.
  unfold ReadString.
  destruct (readers w !! r) as [b|]; simpl; [|split; discriminate].
  destruct (cut d (buf b)) as [[l rest]|] eqn:C1; simpl.
  { apply cut_ends in C1. tauto. }
  destruct (lookup_open (src b) w) as [[h n]|]; simpl.
  - destruct (cut d (buf b +:+ _)) as [[l rest]|] eqn:C2; simpl.
    + apply cut_ends in C2. tauto.
    + apply cut_none in C2. rewrite C2. split; discriminate.
  - apply cut_none in C1. rewrite C1. split; discriminate.
Qed.

#[global] Instance memfs : OS World := {|
  ctx_Done := ctxDone;
  reader_ReadString := ReadString;
  reader_Reset := Reset;
  bufio_NewReaderSize := NewReaderSize;
  file_Seek := Seek;
  file_Stat := Stat;
  file_Close := Close;
  os_Stat := osStat;
  os_Open := osOpen;
  wait_any := wait;
  time_Now := now;
  chan_send := chanSend;
  make_chan := makeChan;
  close_chan := closeChan;
  ReadString_delim := ReadString_ends
|}.

(** A disk with one readable file, [data] at [path], inode [i] of device 1;
    references are handed out from 10 on. *)
Definition disk (path data : string) (i : Z) (moves : list (list Outside)) : World :=
  {| nodes := {[ 1%nat := {| content := data;
                             meta := Some {| Dev := 1; Ino := i |};
                             readable := true |} ]};
     names := {[ path := 1%nat ]};
     handles := ∅; readers := ∅; chans := ∅;
     cancelled := false; clock := 0; script := moves; fresh := 10 |}.

(** The same disk as [Follow] leaves it when the file has been read up to
    offset [p]: the file is open as 10, its reader is 11, [lines] is 12
    and [done] is 13. *)
Definition tailing (path data : string) (i : Z) (p : Z)
    (moves : list (list Outside)) : World :=
  {| nodes := {[ 1%nat := {| content := data;
                             meta := Some {| Dev := 1; Ino := i |};
                             readable := true |} ]};
     names := {[ path := 1%nat ]};
     handles := {[ 10%nat := {| node := 1; pos := p; closed := false |} ]};
     readers := {[ 11%nat := {| src := 10%nat; buf := EmptyString |} ]};
     chans := {[ 12%nat := {| cap := 64; queue := []; shut := false |};
                 13%nat := {| cap := 0; queue := []; shut := false |} ]};
     cancelled := false; clock := 0; script := moves; fresh := 14 |}.

Definition tailer0 : Tailer :=
  {| lines := 12%nat; err := None; done := 13%nat |}.

Definition id7 : fileIdentity := {| dev := 1; ino := 7 |}.

(** The variables of the loop on that disk, with [p] pending. *)
Definition held (p : string) : LoopVars :=
  {| file := 10; reader := 11; fileID := id7; partialLine := p |}.

(** The file was read to its end, nine bytes and the last four of them
    without terminator, and has then been truncated to nothing. *)
Definition truncated : World :=
  act (tailing "app.log" (line "keep" +:+ "part") 7 9 []) (Truncate "app.log").

(** The file was read to its end and has then been renamed away; a new
    file has the path. *)
Definition rotated_away : World :=
  fold_left act
    [Rename "app.log" "app.log.1";
     Create "app.log" (Some {| Dev := 1; Ino := 8 |}) true]
    (tailing "app.log" (line "one") 7 4 []).

(** The file was read to its end and has then been renamed away; the new
    file that has the path cannot be opened for reading. *)
Definition rotated_unreadable : World :=
  fold_left act
    [Rename "app.log" "app.log.1";
     Create "app.log" (Some {| Dev := 1; Ino := 8 |}) false]
    (tailing "app.log" (line "one") 7 4 []).

(** The file was read to its end and its name has then been removed. *)
Definition path_missing : World :=
  act (tailing "app.log" (line "one") 7 4 []) (Remove "app.log").

(** The file behind the loop has been closed. *)
Definition closed_under : World :=
  Close 10 (tailing "app.log" (line "one") 7 4 []).

(** A file with one line and four bytes of the next one; while the engine
    waits the file is truncated to nothing, then a new line is written. *)
Definition truncation_story : World :=
  disk "app.log" (line "keep" +:+ "part") 7
    [[Truncate "app.log"]; [Append "app.log" (line "new")]].

(** A file with one line; while the engine waits the file is renamed
    away and a new file with a line takes the path; two waits later the
    context is cancelled. *)
Definition rotation_story : World :=
  disk "app.log" (line "one") 7
    [[Rename "app.log" "app.log.1";
      Create "app.log" (Some {| Dev := 1; Ino := 8 |}) true;
      Append "app.log" (line "two")];
     [];
     [Cancel]].

(** Two bytes without terminator are in the file; while the engine waits
    the rest of the line is written. *)
Definition appended : World :=
  tailing "app.log" "ab" 7 0 [[Append "app.log" (line "c")]].

(** The file was read to its end; while the engine waits the context is
    cancelled. *)
Definition cancelled_later : World :=
  tailing "app.log" (line "one") 7 4 [[Cancel]].

(** [n] lines. *)
Fixpoint many_lines (n : nat) : string :=
  match n with
  | O => EmptyString
  | S n' => line "x" +:+ many_lines n'
  end.

(** The texts that wait in the channel [ch]. *)
Definition received (ch : Chan) (w : World) : list string :=
  match chans w !! ch with
  | Some q => map Text (queue q)
  | None => []
  end.

(** [Follow], then the task it has started for at most [n] iterations:
    the tailer at the end (if the task has ended), the world and the events
    of the task. *)
Definition follow_and_run {pf : Platform} (path : string) (opts : list Option)
    (n : nat) (w : World) : option (option Tailer * World * list Event) :=
  let '(fd, w1, _) := Follow path opts w in
  match started fd with
  | Some task => Some (task n w1)
  | None => None
  end.

End MemFS.

(** * Properties of the engine, for every world *)

Lemma fileIdentity_eqb_eq (a b : fileIdentity) :
  fileIdentity_eqb a b = true <-> a = b.
Proof.
  destruct a as [d1 i1], b as [d2 i2]; unfold fileIdentity_eqb; simpl.
  rewrite andb_true_iff, !Z.eqb_eq. split.
  - intros [-> ->]; reflexivity.
  - intros [= -> ->]; split; reflexivity.
Qed.

Lemma fileIdentity_eqb_neq (a b : fileIdentity) :
  fileIdentity_eqb a b = false <-> a <> b.
Proof.
  rewrite <- fileIdentity_eqb_eq. destruct (fileIdentity_eqb a b); split; congruence.
Qed.

Lemma rotated_test {pf : Platform} (pathInfo : FileInfo) (fileID : fileIdentity) :
  negb (fileIdentity_eqb (getFileIdentity pathInfo) fileID)
  && negb (fileIdentity_eqb (getFileIdentity pathInfo) zeroIdentity) = true
  <-> rotated pathInfo fileID.
Proof.
  unfold rotated. rewrite andb_true_iff, !negb_true_iff, !fileIdentity_eqb_neq.
  reflexivity.
Qed.

Section Facts.
Context {W : Type} {os : OS W} {pf : Platform}.

(** Unfolds the calls of the monad. *)
Ltac unfold_calls :=
  unfold bind, ret, ctxDone, ReadString, Reset, NewReader, NewReaderSize,
    Seek, Stat, Close, osStat, osOpen, waitAny, Now, send, makeChan,
    closeChan, go in *.

(** Splits on the answer of the next call of the system. *)
Ltac next_call :=
  match goal with
  | H : context [match ?x with _ => _ end] |- _ =>
      first [ is_var x; destruct x | destruct x eqn:? ]
  | H : context [if ?x then _ else _] |- _ => destruct x eqn:?
  end.

Lemma checkFileState_outcome f r id path w res w' evs :
  checkFileState f r id path w = (res, w', evs) ->
  check_outcome f r id path evs res.
Proof.
  unfold checkFileState. unfold_calls. intros H.
  repeat next_call; simplify_eq; simpl;
    repeat match goal with
    | H : Z.ltb _ _ = true |- _ => apply Z.ltb_lt in H
    | H : Z.ltb _ _ = false |- _ => apply Z.ltb_ge in H
    | H : _ && _ = true |- _ => apply rotated_test in H
    | H : _ && _ = false |- _ =>
        apply not_true_iff_false in H; rewrite rotated_test in H
    end;
    try (constructor; assumption).
Qed.

Lemma is_empty_true (s : string) : is_empty s = true <-> s = EmptyString.
Proof. destruct s; simpl; split; congruence. Qed.

Lemma is_empty_false (s : string) : is_empty s = false <-> s <> EmptyString.
Proof. destruct s; simpl; split; congruence. Qed.

Lemma iteration_outcome t path o v w res w' evs :
  iteration t path o v w = (res, w', evs) ->
  iter_outcome t path o v evs res.
Proof.
  unfold iteration, waitForData. unfold_calls. intros H.
  repeat match goal with
  | H : context [checkFileState ?f ?r ?i ?p ?w] |- _ =>
      let E := fresh "Hcheck" in
      destruct (checkFileState f r i p w) as [[[[[[? ?] ?] ?] ?] ?] ?] eqn:E;
      apply checkFileState_outcome in E
  | _ => next_call
  end; simplify_eq; simpl.
  all: match goal with
    | H : reader_ReadString ?r ?d ?w = _ |- _ =>
        let C := fresh "Hdelim" in
        pose proof (ReadString_delim r d w) as C; rewrite H in C; simpl in C
    | _ => idtac
    end.
  all: repeat match goal with
    | H : None = None <-> _ |- _ => destruct H as [H _]; specialize (H eq_refl)
    | H : Some _ = None <-> ?x = true |- _ =>
        let E := fresh in
        assert (x = false) as E
          by (destruct x; [destruct H as [_ H]; discriminate (H eq_refl) | reflexivity]);
        clear H
    end.
  all: repeat match goal with
    | H : is_empty _ = true |- _ => apply is_empty_true in H
    | H : is_empty _ = false |- _ => apply is_empty_false in H
    | H : negb _ = true |- _ => apply negb_true_iff in H
    | H : negb _ = false |- _ => apply negb_false_iff in H
    end.
  all: repeat match goal with
    | e : error, H : is_EOF ?e = true |- _ => destruct e; try discriminate H; clear H
    | H : notify _ = _ |- _ => rewrite <- H
    end.
  all: rewrite ?app_nil_r.
  all: try (econstructor; eassumption).
  all: match goal with
    | H : partialLine ?v = EmptyString |- iter_outcome ?t ?p ?o _ ?l _ =>
        match l with
        | context [EvSend _ _ ?b] =>
            let X := fresh in
            pose proof (io_line t p o v) as X; rewrite H in X; rewrite ?H;
            simpl in X; apply (X _ _ b); assumption
        | _ =>
            let X := fresh in
            pose proof (io_empty_line t p o v) as X; rewrite H in X; rewrite ?H;
            simpl in X; apply X; assumption
        end
    | |- iter_outcome ?t ?p ?o ?v ?l _ =>
        match l with
        | context [EvSend _ _ ?b] => apply (io_line t p o v _ _ b); assumption
        end
    | _ => idtac
    end.
Qed.

Lemma read_since_terminator_app acc a b :
  read_since_terminator acc (a ++ b) =
  read_since_terminator (read_since_terminator acc a) b.
Proof.
  revert acc. induction a as [|e a IH]; intros acc; simpl; [reflexivity|].
  destruct e; try apply IH. destruct e; apply IH.
Qed.

Lemma check_outcome_pending f r id path cevs f' r' id' b acc :
  check_outcome f r id path cevs (f', r', id', b, None) ->
  read_since_terminator acc cevs = if b then EmptyString else acc.
Proof. inversion 1; subst; reflexivity. Qed.

Lemma check_outcome_no_send f r id path cevs res :
  check_outcome f r id path cevs res ->
  forallb (fun e => negb (is_send e)) cevs = true.
Proof. inversion 1; subst; reflexivity. Qed.

Lemma no_send_assembled acc evs :
  forallb (fun e => negb (is_send e)) evs = true -> sends_assembled acc evs.
Proof.
  intros H pre ch l sent post ->.
  rewrite forallb_app in H. simpl in H.
  rewrite andb_false_r in H. discriminate.
Qed.

Lemma sends_assembled_app acc a b :
  sends_assembled acc a ->
  sends_assembled (read_since_terminator acc a) b ->
  sends_assembled acc (a ++ b).
Proof.
  intros Ha Hb pre ch l sent post E.
  apply app_eq_app in E as [k [[-> E]|[-> E]]].
  - destruct k as [|x k]; simpl in E.
    + destruct (Hb [] ch l sent post (eq_sym E)) as (pre' & rd & seg & E' & _).
      destruct pre'; discriminate.
    + injection E as <- ->. apply (Ha pre ch l sent k eq_refl).
  - destruct (Hb k ch l sent post E) as (pre' & rd & seg & -> & He & Ht & Hn).
    exists (a ++ pre')%list, rd, seg. rewrite <- app_assoc.
    rewrite read_since_terminator_app. auto.
Qed.

(** One iteration: its sends are assembled lines, and the variable
    [partialLine] follows the reads. *)
Lemma iter_outcome_assembles t path o v evs res :
  iter_outcome t path o v evs res ->
  sends_assembled (partialLine v) evs /\
  (forall v', res = inl v' ->
     partialLine v' = read_since_terminator (partialLine v) evs).
Proof.
  inversion 1; subst.
  1-2, 6: split; [apply no_send_assembled; reflexivity | intros; simplify_eq; reflexivity].
  1-3: split;
    [ apply no_send_assembled; simpl; rewrite ?forallb_app;
      erewrite check_outcome_no_send by eassumption; reflexivity
    | intros; simplify_eq; simpl;
      rewrite ?read_since_terminator_app;
      try match goal with
      | H : check_outcome _ _ _ _ _ _ |- _ =>
          rewrite (check_outcome_pending _ _ _ _ _ _ _ _ _ _ H)
      end; reflexivity ].
  split.
  - intros pre ch l sent' post E.
    do 4 (destruct pre as [|? pre]; simplify_eq/=).
    + exists [EvCtxDone false], (reader v), seg. auto.
    + destruct pre; discriminate.
  - intros v' E. destruct sent; simplify_eq. reflexivity.
Qed.

Lemma loop_assembles n t path o : forall v w res w' evs,
  loop n t path o v w = (res, w', evs) ->
  sends_assembled (partialLine v) evs /\
  (forall v', res = inl v' ->
     partialLine v' = read_since_terminator (partialLine v) evs).
Proof.
  induction n as [|n IH]; intros v w res w' evs H; simpl in H.
  - unfold ret in H. simplify_eq. split.
    + apply no_send_assembled. reflexivity.
    + intros; simplify_eq. reflexivity.
  - unfold bind in H.
    destruct (iteration t path o v w) as [[r1 w1] e1] eqn:Hit.
    apply iteration_outcome, iter_outcome_assembles in Hit as [Hs Hp].
    destruct r1 as [v1|e].
    + destruct (loop n t path o v1 w1) as [[r2 w2] e2] eqn:Hl.
      simplify_eq. apply IH in Hl as [Hs2 Hp2].
      specialize (Hp v1 eq_refl). rewrite Hp in Hs2, Hp2. split.
      * apply sends_assembled_app; assumption.
      * intros v' ->. rewrite read_since_terminator_app. auto.
    + unfold ret in H. simplify_eq. rewrite app_nil_r. split; [assumption|].
      intros; discriminate.
Qed.

(** An iteration that is not cancelled and reads up to the end of the
    file goes through [checkFileState] and follows its answer. *)
Lemma iteration_at_eof t path o v w w1 w2 seg f' r' id' b e w3 cevs :
  ctx_Done w = (false, w1) ->
  reader_ReadString (reader v) LF w1 = ((seg, Some io_EOF), w2) ->
  checkFileState (file v) (reader v) (fileID v) path w2
    = ((f', r', id', b, e), w3, cevs) ->
  iteration t path o v w =
    match e, b with
    | Some e, _ =>
        (inr (Some e), w3,
         [EvCtxDone false; EvReadString (reader v) seg (Some io_EOF)] ++ cevs)
    | None, true =>
        (inl {| file := f'; reader := r'; fileID := id'; partialLine := EmptyString |},
         wait_any (notify o) (pollInterval o) w3,
         [EvCtxDone false; EvReadString (reader v) seg (Some io_EOF)] ++ cevs
           ++ [EvWait (notify o) (pollInterval o)])
    | None, false =>
        (inl {| file := f'; reader := r'; fileID := id';
                partialLine := partialLine v +:+ seg |},
         wait_any (notify o) (pollInterval o) (reader_Reset r' f' w3),
         [EvCtxDone false; EvReadString (reader v) seg (Some io_EOF)] ++ cevs
           ++ [EvReset r' f'; EvWait (notify o) (pollInterval o)])
    end%list.
Proof.
  intros Hpoll Hread Hcheck.
  unfold iteration, bind, ctxDone, ReadString. rewrite Hpoll, Hread. simpl.
  rewrite Hcheck. destruct e as [e|]; simpl.
  - rewrite app_nil_r. reflexivity.
  - unfold waitForData, waitAny, Reset, ret.
    destruct b, (notify o); simpl; reflexivity.
Qed.

(** An iteration that is not cancelled and reads a terminated segment. *)
Lemma iteration_at_line t path o v w w1 w2 seg :
  ctx_Done w = (false, w1) ->
  reader_ReadString (reader v) LF w1 = ((seg, None), w2) ->
  let text := TrimRight (partialLine v +:+ seg) CRLF in
  let next := {| file := file v; reader := reader v; fileID := fileID v;
                 partialLine := EmptyString |} in
  iteration t path o v w =
    if is_empty text then
      (inl next, w2, [EvCtxDone false; EvReadString (reader v) seg None])
    else
      let l := {| Text := text; Time_ := (time_Now w2).1 |} in
      let sent := chan_send (lines t) l (time_Now w2).2 in
      (if sent.1 then inl next else inr None, sent.2,
       [EvCtxDone false; EvReadString (reader v) seg None;
        EvNow (time_Now w2).1; EvSend (lines t) l sent.1]).
Proof.
  intros Hpoll Hread. simpl.
  unfold iteration, bind, ctxDone, ReadString. rewrite Hpoll, Hread. simpl.
  assert ((if negb (is_empty (partialLine v))
           then (partialLine v +:+ seg, EmptyString) else (seg, partialLine v))
          = (partialLine v +:+ seg, EmptyString)) as ->.
  { destruct (partialLine v); reflexivity. }
  destruct (is_empty (TrimRight (partialLine v +:+ seg) CRLF)); [reflexivity|].
  unfold Now, send, ret.
  destruct (time_Now w2) as [now w3]; simpl.
  destruct (chan_send _ _ w3) as [[] w4]; reflexivity.
Qed.

(** ** The state check *)

(** C10. Whenever [checkFileState] returns a non-nil error, the file, the
    reader and the identity it returns are the ones it was given and
    [reopened] is false: a fatal error of the state check never swaps the
    state the loop holds for a new one. *)
Theorem checkFileState_error_keeps_state f r id path w f' r' id' b e w' evs :
  checkFileState f r id path w = ((f', r', id', b, Some e), w', evs) ->
  f' = f /\ r' = r /\ id' = id /\ b = false.
Proof.
  intros H. apply checkFileState_outcome in H.
  inversion H; subst; auto.
Qed.

(** The state check in which the path did not resolve, or the file it now
    names did not open: the calls it made, each with its answer and the
    world it left, and what it returned. *)
Lemma checkFileState_transient f r id path w cres w' cevs :
  checkFileState f r id path w = (cres, w', cevs) ->
  transient path cevs ->
  cres = (f, r, id, false, None) /\
  exists pos st w1 w2,
    file_Seek f 0 SeekCurrent w = (Ok pos, w1) /\
    file_Stat f w1 = (Ok st, w2) /\
    pos <= Size st /\
    ((exists e,
        os_Stat path w2 = (Fail e, w') /\
        cevs = [EvSeek f 0 SeekCurrent (Ok pos); EvFStat f (Ok st);
                EvStat path (Fail e)]) \/
     (exists info w3 e,
        os_Stat path w2 = (Ok info, w3) /\ rotated info id /\
        os_Open path w3 = (Fail e, w') /\
        cevs = [EvSeek f 0 SeekCurrent (Ok pos); EvFStat f (Ok st);
                EvStat path (Ok info); EvOpen path (Fail e)])).
Proof.
  unfold checkFileState. unfold_calls. intros H T.
  repeat next_call; simplify_eq; simpl;
    try solve [ exfalso; destruct T as [e0 [T|T]]; simpl in T;
                intuition discriminate ];
    repeat match goal with
    | H : Z.ltb _ _ = false |- _ => apply Z.ltb_ge in H
    | H : _ && _ = true |- _ => apply rotated_test in H
    end;
    (split; [reflexivity|]); eexists _, _, _, _;
    (split; [first [reflexivity | eassumption]|]);
    (split; [first [reflexivity | eassumption]|]); (split; [assumption|]).
  - right. eexists _, _, _. split; [first [reflexivity | eassumption]|].
    split; [assumption|].
    split; [first [reflexivity | eassumption] | reflexivity].
  - left. eexists. split; [first [reflexivity | eassumption] | reflexivity].
Qed.

(** C5. When, during the state check, the path fails to stat or the file
    it now names fails to open, [checkFileState] returns a nil error with
    the file, the reader and the identity it was given, and it has made
    these calls and no others: the query of the position of the held file,
    the stat of the held file, the stat of the path and, when that one
    succeeded, the open that failed; so the held file is not closed, its
    position is not moved and no reader is made.  The iteration of the loop
    that made the check ends in the next iteration, not in a [return]: the
    reader is reset on the held file, the engine waits, and the loop goes
    on from the same file, reader and identity, where the check is made
    again.  The task has not ended: nothing deferred has run and no error
    is recorded. *)
Theorem transient_failures_are_absorbed path :
  (forall f r id w cres w' cevs,
     checkFileState f r id path w = (cres, w', cevs) ->
     transient path cevs ->
     cres = (f, r, id, false, None) /\
     (exists pos st w1 w2,
        file_Seek f 0 SeekCurrent w = (Ok pos, w1) /\
        file_Stat f w1 = (Ok st, w2) /\
        pos <= Size st /\
        ((exists e,
            os_Stat path w2 = (Fail e, w') /\
            cevs = [EvSeek f 0 SeekCurrent (Ok pos); EvFStat f (Ok st);
                    EvStat path (Fail e)]) \/
         (exists info w3 e,
            os_Stat path w2 = (Ok info, w3) /\ rotated info id /\
            os_Open path w3 = (Fail e, w') /\
            cevs = [EvSeek f 0 SeekCurrent (Ok pos); EvFStat f (Ok st);
                    EvStat path (Ok info); EvOpen path (Fail e)]))) /\
     (forall g, ~ In (EvClose g) cevs) /\
     (forall g off wh a, In (EvSeek g off wh a) cevs ->
        g = f /\ off = 0 /\ wh = SeekCurrent) /\
     (forall g size rd, ~ In (EvNewReader g size rd) cevs) /\
     (forall rd g, ~ In (EvReset rd g) cevs)) /\
  (forall t o v w w1 w2 seg cres w3 cevs,
     ctx_Done w = (false, w1) ->
     reader_ReadString (reader v) LF w1 = ((seg, Some io_EOF), w2) ->
     checkFileState (file v) (reader v) (fileID v) path w2 = (cres, w3, cevs) ->
     transient path cevs ->
     iteration t path o v w =
       (inl {| file := file v; reader := reader v; fileID := fileID v;
               partialLine := partialLine v +:+ seg |},
        wait_any (notify o) (pollInterval o)
          (reader_Reset (reader v) (file v) w3),
        [EvCtxDone false; EvReadString (reader v) seg (Some io_EOF)] ++ cevs
          ++ [EvReset (reader v) (file v);
              EvWait (notify o) (pollInterval o)])%list) /\
  (forall n t o v w w1 w2 seg cres w3 cevs,
     ctx_Done w = (false, w1) ->
     reader_ReadString (reader v) LF w1 = ((seg, Some io_EOF), w2) ->
     checkFileState (file v) (reader v) (fileID v) path w2 = (cres, w3, cevs) ->
     transient path cevs ->
     let next :=
       loop n t path o
         {| file := file v; reader := reader v; fileID := fileID v;
            partialLine := partialLine v +:+ seg |}
         (wait_any (notify o) (pollInterval o)
            (reader_Reset (reader v) (file v) w3)) in
     loop (S n) t path o v w =
       (next.1.1, next.1.2,
        (([EvCtxDone false; EvReadString (reader v) seg (Some io_EOF)] ++ cevs
           ++ [EvReset (reader v) (file v);
               EvWait (notify o) (pollInterval o)]) ++ next.2)%list)) /\
  (forall t f r id o w w1 w2 seg cres w3 cevs,
     ctx_Done w = (false, w1) ->
     reader_ReadString r LF w1 = ((seg, Some io_EOF), w2) ->
     checkFileState f r id path w2 = (cres, w3, cevs) ->
     transient path cevs ->
     followTask t f r id path o 1 w =
       (None,
        wait_any (notify o) (pollInterval o) (reader_Reset r f w3),
        [EvCtxDone false; EvReadString r seg (Some io_EOF)] ++ cevs
          ++ [EvReset r f; EvWait (notify o) (pollInterval o)])%list).
Proof.
  assert (forall t o v w w1 w2 seg cres w3 cevs,
     ctx_Done w = (false, w1) ->
     reader_ReadString (reader v) LF w1 = ((seg, Some io_EOF), w2) ->
     checkFileState (file v) (reader v) (fileID v) path w2 = (cres, w3, cevs) ->
     transient path cevs ->
     iteration t path o v w =
       (inl {| file := file v; reader := reader v; fileID := fileID v;
               partialLine := partialLine v +:+ seg |},
        wait_any (notify o) (pollInterval o)
          (reader_Reset (reader v) (file v) w3),
        [EvCtxDone false; EvReadString (reader v) seg (Some io_EOF)] ++ cevs
          ++ [EvReset (reader v) (file v);
              EvWait (notify o) (pollInterval o)])%list) as Hiter.
  { intros t o v w w1 w2 seg cres w3 cevs Hpoll Hread Hc Ht.
    destruct (checkFileState_transient _ _ _ _ _ _ _ _ Hc Ht) as [-> _].
    apply (iteration_at_eof t path o v w w1 w2 seg _ _ _ _ _ w3 cevs
             Hpoll Hread Hc). }
  split; [|split; [exact Hiter|split]].
  - intros f r id w cres w' cevs H T.
    destruct (checkFileState_transient _ _ _ _ _ _ _ _ H T) as [Hres Hcalls].
    split; [exact Hres|]. split; [exact Hcalls|].
    destruct Hcalls as (pos & st & w1 & w2 & _ & _ & _ & Hev).
    destruct Hev as [(e & _ & ->)|(info & w3 & e & _ & _ & _ & ->)];
      (split; [|split; [|split]]).
    all: try solve [intros g Hin; simpl in Hin; intuition discriminate].
    all: try solve [intros g size rd Hin; simpl in Hin; intuition discriminate].
    all: try solve [intros rd g Hin; simpl in Hin; intuition discriminate].
    all: intros g off wh a Hin; simpl in Hin;
      repeat (destruct Hin as [Hin|Hin]; try discriminate Hin);
      try contradiction; simplify_eq; auto.
  - intros n t o v w w1 w2 seg cres w3 cevs Hpoll Hread Hc Ht next.
    subst next. cbn [loop]. unfold bind at 1.
    rewrite (Hiter t o v w w1 w2 seg cres w3 cevs Hpoll Hread Hc Ht).
    destruct (loop n t path o _ _) as [[res w'] evs']. reflexivity.
  - intros t f r id o w w1 w2 seg cres w3 cevs Hpoll Hread Hc Ht.
    unfold followTask, tailLoop. unfold bind at 1. cbn [loop]. unfold bind at 1.
    rewrite (Hiter t o {| file := f; reader := r; fileID := id;
                          partialLine := EmptyString |}
               w w1 w2 seg cres w3 cevs Hpoll Hread Hc Ht).
    unfold ret. cbn. rewrite !app_nil_r. reflexivity.
Qed.

(** C3. [checkFileState] opens the path exactly when the identity it has
    resolved from the path differs from the identity held and is not the
    zero identity; when that open succeeds the old file is closed; it
    returns [reopened = true] exactly on the way where the open and the
    stat of the new file succeed, and then returns the new file, a new
    reader on it and the identity of the new file; and the iteration of
    the loop in which [reopened] is true goes on with the new file, reader
    and identity and an empty [partialLine]. *)
Theorem rotation_reopens path :
  (forall f r id w f' r' id' b e w' cevs,
     checkFileState f r id path w = ((f', r', id', b, e), w', cevs) ->
     (forall info, In (EvStat path (Ok info)) cevs ->
        ((exists a, In (EvOpen path a) cevs) <-> rotated info id)) /\
     (forall newFile, In (EvOpen path (Ok newFile)) cevs ->
        In (EvClose f) cevs) /\
     (b = true <->
      exists pos st info newInfo,
        rotated info id /\
        cevs = [EvSeek f 0 SeekCurrent (Ok pos); EvFStat f (Ok st);
                EvStat path (Ok info); EvOpen path (Ok f'); EvClose f;
                EvNewReader f' 4096 r'; EvFStat f' (Ok newInfo)] /\
        id' = getFileIdentity newInfo /\ e = None)) /\
  (forall t o v w w1 w2 seg f' r' id' e w3 cevs,
     ctx_Done w = (false, w1) ->
     reader_ReadString (reader v) LF w1 = ((seg, Some io_EOF), w2) ->
     checkFileState (file v) (reader v) (fileID v) path w2
       = ((f', r', id', true, e), w3, cevs) ->
     iteration t path o v w =
       (inl {| file := f'; reader := r'; fileID := id'; partialLine := EmptyString |},
        wait_any (notify o) (pollInterval o) w3,
        [EvCtxDone false; EvReadString (reader v) seg (Some io_EOF)] ++ cevs
          ++ [EvWait (notify o) (pollInterval o)])%list).
Proof.
  split.
  - intros f r id w f' r' id' b e w' cevs Hcheck.
    pose proof (checkFileState_outcome _ _ _ _ _ _ _ _ Hcheck) as Hout.
    split; [|split].
    + intros info Hin.
      inversion Hout; subst; simpl in Hin;
        repeat (destruct Hin as [Hin|Hin]; try discriminate Hin);
        try contradiction; simplify_eq; (split; [intros Hex | intros Hrot]);
        first [ assumption | contradiction
              | eexists; simpl; eauto 10; fail
              | destruct Hex as [a Ha]; simpl in Ha; exfalso;
                intuition discriminate ].
    + intros newFile Hin.
      inversion Hout; subst; simpl in Hin |- *;
        repeat (destruct Hin as [Hin|Hin]; try discriminate Hin);
        try contradiction; auto 10.
    + split.
      * intros ->. inversion Hout; subst. eauto 10.
      * intros (pos & st & info & newInfo & _ & Hev & _ & _).
        subst cevs. inversion Hout; simplify_eq; reflexivity.
  - intros t o v w w1 w2 seg f' r' id' e w3 cevs Hpoll Hread Hcheck.
    assert (e = None) as ->.
    { apply checkFileState_outcome in Hcheck. inversion Hcheck; reflexivity. }
    apply (iteration_at_eof t path o v w w1 w2 seg _ _ _ _ _ w3 cevs Hpoll Hread Hcheck).
Qed.

(** C1 (amended). When a truncation is detected, that is when the size of
    the file taken through the held handle is smaller than the position of
    the handle, the engine seeks that same handle to offset zero; if the
    seek fails the loop returns the error, and otherwise the reader is
    reset on the same file, nothing is opened or closed, the loop goes on
    with the same file, reader and identity, and [partialLine] is not
    discarded: it is what it was, followed by the bytes of this read. *)
Theorem truncation_rewinds_and_keeps_partial t path o v w w1 w2 w3 w4 seg pos st :
  ctx_Done w = (false, w1) ->
  reader_ReadString (reader v) LF w1 = ((seg, Some io_EOF), w2) ->
  file_Seek (file v) 0 SeekCurrent w2 = (Ok pos, w3) ->
  file_Stat (file v) w3 = (Ok st, w4) ->
  Size st < pos ->
  iteration t path o v w =
    match file_Seek (file v) 0 SeekStart w4 with
    | (Fail e, w5) =>
        (inr (Some (Wrapped "seek after truncation: " e)), w5,
         [EvCtxDone false; EvReadString (reader v) seg (Some io_EOF);
          EvSeek (file v) 0 SeekCurrent (Ok pos); EvFStat (file v) (Ok st);
          EvSeek (file v) 0 SeekStart (Fail e)])
    | (Ok p0, w5) =>
        (inl {| file := file v; reader := reader v; fileID := fileID v;
                partialLine := partialLine v +:+ seg |},
         wait_any (notify o) (pollInterval o)
           (reader_Reset (reader v) (file v)
              (reader_Reset (reader v) (file v) w5)),
         [EvCtxDone false; EvReadString (reader v) seg (Some io_EOF);
          EvSeek (file v) 0 SeekCurrent (Ok pos); EvFStat (file v) (Ok st);
          EvSeek (file v) 0 SeekStart (Ok p0);
          EvReset (reader v) (file v); EvReset (reader v) (file v);
          EvWait (notify o) (pollInterval o)])
    end.
Proof.
  intros Hpoll Hread Hseek Hstat Hlt.
  destruct (file_Seek (file v) 0 SeekStart w4) as [[p0|e] w5] eqn:Hrewind.
  - rewrite (iteration_at_eof t path o v w w1 w2 seg
               (file v) (reader v) (fileID v) false None
               (reader_Reset (reader v) (file v) w5)
               [EvSeek (file v) 0 SeekCurrent (Ok pos); EvFStat (file v) (Ok st);
                EvSeek (file v) 0 SeekStart (Ok p0); EvReset (reader v) (file v)]
               Hpoll Hread); [reflexivity|].
    unfold checkFileState, bind, Seek, Stat, Reset, ret.
    rewrite Hseek, Hstat. apply Z.ltb_lt in Hlt. rewrite Hlt, Hrewind.
    reflexivity.
  - rewrite (iteration_at_eof t path o v w w1 w2 seg
               (file v) (reader v) (fileID v) false
               (Some (Wrapped "seek after truncation: " e)) w5
               [EvSeek (file v) 0 SeekCurrent (Ok pos); EvFStat (file v) (Ok st);
                EvSeek (file v) 0 SeekStart (Fail e)]
               Hpoll Hread); [reflexivity|].
    unfold checkFileState, bind, Seek, Stat, Reset, ret.
    rewrite Hseek, Hstat. apply Z.ltb_lt in Hlt. rewrite Hlt, Hrewind.
    reflexivity.
Qed.

(** ** The line assembler *)

(** C2. Whatever the reads return, a line is sent only right after a read
    that returned a segment ending in the terminator, its text is the bytes
    read from the reader since the previous terminator (what was pending,
    then that segment) without the trailing CR and LF, and after the send
    [partialLine] is empty; between two iterations [partialLine] holds
    exactly the bytes read since the last terminator.  The reads are those
    of the reader in use: [read_since_terminator] starts afresh when
    [checkFileState] makes a new reader. *)
Theorem lines_are_assembled n t f r id path o w res w' evs :
  tailLoop n t f r id path o w = (res, w', evs) ->
  sends_assembled EmptyString evs /\
  (forall v, res = inl v -> partialLine v = read_since_terminator EmptyString evs) /\
  (forall pre ch l sent v,
     evs = (pre ++ [EvSend ch l sent])%list -> res = inl v ->
     partialLine v = EmptyString).
Proof.
  intros H. apply loop_assembles in H as [Hs Hp]. simpl in Hs, Hp.
  split; [assumption|]. split; [assumption|].
  intros pre ch l sent v E Hv. rewrite (Hp v Hv).
  destruct (Hs pre ch l sent [] E) as (pre' & rd & seg & -> & _).
  subst evs. rewrite !read_since_terminator_app. reflexivity.
Qed.

(** C8. A terminated line with nothing but CR and LF since the previous
    terminator, as is a terminator that follows a terminator, is dropped:
    the iteration that reads it sends nothing and leaves [partialLine]
    empty, and no line with an empty text is ever sent. *)
Theorem empty_lines_are_discarded t path o :
  (forall v w w1 w2 seg,
     ctx_Done w = (false, w1) ->
     reader_ReadString (reader v) LF w1 = ((seg, None), w2) ->
     TrimRight (partialLine v +:+ seg) CRLF = EmptyString ->
     iteration t path o v w =
       (inl {| file := file v; reader := reader v; fileID := fileID v;
               partialLine := EmptyString |},
        w2, [EvCtxDone false; EvReadString (reader v) seg None])) /\
  TrimRight (EmptyString +:+ String LF EmptyString) CRLF = EmptyString /\
  (forall n f r id w res w' evs ch l sent,
     tailLoop n t f r id path o w = (res, w', evs) ->
     In (EvSend ch l sent) evs -> Text l <> EmptyString).
Proof.
  split; [|split; [reflexivity|]].
  - intros v w w1 w2 seg Hpoll Hread Hempty.
    rewrite (iteration_at_line t path o v w w1 w2 seg Hpoll Hread).
    simpl. rewrite Hempty. reflexivity.
  - intros n f r id w res w' evs ch l sent H Hin.
    apply loop_assembles in H as [Hs _].
    apply in_split in Hin as (pre & post & ->).
    destruct (Hs pre ch l sent post eq_refl) as (_ & _ & _ & _ & _ & _ & Hne).
    exact Hne.
Qed.

(** ** Stopping *)

Lemma iter_return_last t path o v evs e :
  iter_outcome t path o v evs (inr e) ->
  exists c, last evs = Some c /\ (is_cancel c = true -> e = None).
Proof.
  inversion 1; subst.
  - eexists; split; [reflexivity | reflexivity].
  - eexists; split; [reflexivity | discriminate].
  - match goal with H : check_outcome _ _ _ _ _ _ |- _ =>
      inversion H; subst end;
      (eexists; split; [reflexivity | discriminate]).
  - destruct sent; simplify_eq.
    eexists; split; [reflexivity | reflexivity].
Qed.

Lemma loop_return_last n t path o : forall v w e w' evs,
  loop n t path o v w = (inr e, w', evs) ->
  exists c, last evs = Some c /\ (is_cancel c = true -> e = None).
Proof.
  induction n as [|n IH]; intros v w e w' evs H; simpl in H.
  - unfold ret in H. discriminate.
  - unfold bind in H.
    destruct (iteration t path o v w) as [[r1 w1] e1] eqn:Hit.
    apply iteration_outcome in Hit. destruct r1 as [v1|e1'].
    + destruct (loop n t path o v1 w1) as [[r2 w2] e2] eqn:Hl.
      simplify_eq. apply IH in Hl as (c & Hc & He).
      exists c. split; [|assumption].
      rewrite last_app, Hc. reflexivity.
    + unfold ret in H. simplify_eq. rewrite app_nil_r.
      apply iter_return_last in Hit. assumption.
Qed.

(** When the task ends, the deferred calls have run after the loop, in
    this order: close the file that [Follow] opened, close [lines], close
    [done]; the error of the loop, if any, is in the tailer. *)
Lemma followTask_ends t f r id path o n w t' w' evs :
  followTask t f r id path o n w = (Some t', w', evs) ->
  exists e wl levs,
    tailLoop n t f r id path o w = (inr e, wl, levs) /\
    evs = (levs ++ [EvClose f; EvCloseChan (lines t); EvCloseChan (done t)])%list /\
    t' = match e with Some e => setErr t e | None => t end.
Proof.
  unfold followTask, bind. intros H.
  destruct (tailLoop n t f r id path o w) as [[res wl] levs] eqn:Hl.
  destruct res as [v|e]; simpl in H; [discriminate|].
  exists e, wl, levs. split; [reflexivity|].
  destruct e; simpl in H; simplify_eq; split; reflexivity.
Qed.

(** C7. When the loop stops because the cancellation was observed, before
    a read or in the send of a line, it returns a nil error, and the task
    that ran it sets no error: an error slot that was empty is empty when
    the output is closed. *)
Theorem cancellation_is_not_an_error n t f r id path o w :
  (forall e w' evs,
     tailLoop n t f r id path o w = (inr e, w', evs) ->
     cancel_observed evs -> e = None) /\
  (forall t' w' levs,
     followTask t f r id path o n w =
       (Some t', w',
        (levs ++ [EvClose f; EvCloseChan (lines t); EvCloseChan (done t)])%list) ->
     cancel_observed levs -> err t = None -> err t' = None).
Proof.
  assert (forall e w' evs,
     tailLoop n t f r id path o w = (inr e, w', evs) ->
     cancel_observed evs -> e = None) as Hloop.
  { intros e w' evs H (c & Hc & Hcancel).
    apply loop_return_last in H as (c' & Hc' & He).
    rewrite Hc in Hc'. injection Hc' as <-. auto. }
  split; [exact Hloop|].
  intros t' w' levs H Hcancel Herr.
  apply followTask_ends in H as (e & wl & levs0 & Hl & E & ->).
  apply app_inv_tail in E. subst levs0.
  rewrite (Hloop e wl levs Hl Hcancel). exact Herr.
Qed.

(** ** Construction *)

(** C6. When the path cannot be opened, [Follow] returns at once a nil
    tailer and the error of the open wrapped with the prefix "tailf: ";
    the open is its only call: no channel is made and no task is started. *)
Theorem Follow_open_failure path opts w e w' :
  os_Open path w = (Fail e, w') ->
  Follow path opts w =
    ({| tailer := None; failure := Some (Wrapped "tailf: " e); started := None |},
     w', [EvOpen path (Fail e)]) /\
  Error (Wrapped "tailf: " e) = "tailf: " +:+ Error e /\
  Unwrap (Wrapped "tailf: " e) = Some e.
Proof.
  intros H. split; [|split; reflexivity].
  unfold Follow, openFile, bind, osOpen, ret. rewrite H. reflexivity.
Qed.

(** * More of the package *)

(** ** Opening *)

(** What [openFile] has done when it fails. *)
Definition openFile_failed (path : string) (o : options) (err : error)
    (evs : list Event) : Prop :=
  evs = [EvOpen path (Fail err)] \/
  (fromStart o = false /\
   exists g, evs = [EvOpen path (Ok g); EvSeek g 0 SeekEnd (Fail err);
                    EvClose g]) \/
  (fromStart o = false /\
   exists g p, evs = [EvOpen path (Ok g); EvSeek g 0 SeekEnd (Ok p);
                      EvFStat g (Fail err); EvClose g]) \/
  (fromStart o = true /\
   exists g, evs = [EvOpen path (Ok g); EvFStat g (Fail err); EvClose g]).

(** What [openFile] has done when it succeeds. *)
Definition openFile_succeeded (path : string) (o : options) (f : File)
    (r : Reader) (id : fileIdentity) (evs : list Event) : Prop :=
  exists info seeks,
    evs = (EvOpen path (Ok f) :: seeks
             ++ [EvFStat f (Ok info); EvNewReader f (bufSize o) r])%list /\
    id = getFileIdentity info /\
    (if fromStart o then seeks = []
     else exists p, seeks = [EvSeek f 0 SeekEnd (Ok p)]).

Lemma openFile_cases path o w f r id e w' evs :
  openFile path o w = ((f, r, id, e), w', evs) ->
  match e with
  | Some err =>
      f = nil_ptr /\ r = nil_ptr /\ id = zeroIdentity /\
      openFile_failed path o err evs
  | None => openFile_succeeded path o f r id evs
  end.
Proof.
  unfold openFile, openFile_failed, openFile_succeeded. unfold_calls. intros H.
  repeat next_call; simplify_eq; simpl;
    repeat match goal with
    | H : negb _ = true |- _ => apply negb_true_iff in H
    | H : negb _ = false |- _ => apply negb_false_iff in H
    end;
    try ((split; [reflexivity|]); (split; [reflexivity|]);
         (split; [reflexivity|]);
         solve [ left; reflexivity
               | right; left; split; [assumption | eexists; reflexivity]
               | right; right; left; split;
                 [assumption | eexists _, _; reflexivity]
               | right; right; right; split;
                 [assumption | eexists; reflexivity] ]).
  - eexists _, [EvSeek _ 0 SeekEnd (Ok _)]. simpl.
    split; [reflexivity|]. split; [reflexivity|].
    match goal with H : fromStart o = _ |- _ => rewrite H end. eauto.
  - eexists _, []. simpl.
    split; [reflexivity|]. split; [reflexivity|].
    match goal with H : fromStart o = _ |- _ => rewrite H end. reflexivity.
Qed.

Lemma Follow_cases path opts w fd w' evs :
  Follow path opts w = (fd, w', evs) ->
  exists f r id e w1 oevs,
    openFile path (applied opts) w = ((f, r, id, e), w1, oevs) /\
    match e with
    | Some err =>
        fd = {| tailer := None; failure := Some (Wrapped "tailf: " err);
                started := None |} /\
        w' = w1 /\ evs = oevs
    | None =>
        exists l d,
          evs = (oevs ++ [EvMakeChan 64 l; EvMakeChan 0 d; EvGo])%list /\
          fd = {| tailer := Some {| lines := l; err := None; done := d |};
                  failure := None;
                  started :=
                    Some (followTask {| lines := l; err := None; done := d |}
                            f r id path (applied opts)) |}
    end.
Proof.
  unfold Follow. fold (applied opts). unfold bind at 1. intros H.
  destruct (openFile path (applied opts) w) as [[[[[f r] id] e] w1] oevs] eqn:Ho.
  exists f, r, id, e, w1, oevs. split; [reflexivity|].
  destruct e as [err|].
  - unfold ret in H. simplify_eq. rewrite app_nil_r. auto.
  - unfold_calls.
    repeat next_call; simplify_eq; simpl. eauto.
Qed.

(** X1. Every failure of [openFile] returns nil pointers, the zero identity
    and the error of the call that failed, as it is; when the open itself
    had succeeded, the last call is the close of the file that was opened;
    no reader is made. *)
Theorem openFile_failure_releases path o w f r id err w' evs :
  openFile path o w = ((f, r, id, Some err), w', evs) ->
  f = nil_ptr /\ r = nil_ptr /\ id = zeroIdentity /\
  (evs = [EvOpen path (Fail err)] \/
   (fromStart o = false /\
    exists g, evs = [EvOpen path (Ok g); EvSeek g 0 SeekEnd (Fail err);
                     EvClose g]) \/
   (fromStart o = false /\
    exists g p, evs = [EvOpen path (Ok g); EvSeek g 0 SeekEnd (Ok p);
                       EvFStat g (Fail err); EvClose g]) \/
   (fromStart o = true /\
    exists g, evs = [EvOpen path (Ok g); EvFStat g (Fail err); EvClose g])).
Proof. intros H. exact (openFile_cases _ _ _ _ _ _ _ _ _ H). Qed.

(** X2. When [openFile] succeeds it has opened the path, moved to the end
    of the file exactly when [fromStart] is false, taken the identity from
    a stat of the file it returns, and made on that file a reader of the
    size in the options; nothing is closed. *)
Theorem openFile_success path o w f r id w' evs :
  openFile path o w = ((f, r, id, None), w', evs) ->
  exists info seeks,
    evs = (EvOpen path (Ok f) :: seeks
             ++ [EvFStat f (Ok info); EvNewReader f (bufSize o) r])%list /\
    id = getFileIdentity info /\
    (if fromStart o then seeks = []
     else exists p, seeks = [EvSeek f 0 SeekEnd (Ok p)]).
Proof. intros H. exact (openFile_cases _ _ _ _ _ _ _ _ _ H). Qed.

(** ** Construction, in full *)

(** X3. [Follow] answers with a tailer or with an error, never both and
    never neither.  With an error, whichever call of [openFile] failed:
    the error is that of [openFile] under the prefix "tailf: ", and no
    channel is made and no task started.  With a tailer: after [openFile]
    it makes [lines] with room for 64, then [done] without buffer, then
    starts one task, on the file, reader and identity of [openFile] and
    the options as applied; the tailer has no error. *)
Theorem Follow_all_or_nothing path opts w fd w' evs :
  Follow path opts w = (fd, w', evs) ->
  exists f r id e w1 oevs,
    openFile path (applied opts) w = ((f, r, id, e), w1, oevs) /\
    match e with
    | Some err =>
        fd = {| tailer := None; failure := Some (Wrapped "tailf: " err);
                started := None |} /\
        w' = w1 /\ evs = oevs /\
        forallb (fun ev => match ev with
                           | EvMakeChan _ _ | EvGo => false
                           | _ => true
                           end) evs = true
    | None =>
        exists l d,
          evs = (oevs ++ [EvMakeChan 64 l; EvMakeChan 0 d; EvGo])%list /\
          let t := {| lines := l; err := None; done := d |} in
          fd = {| tailer := Some t; failure := None;
                  started := Some (followTask t f r id path (applied opts)) |}
    end.
Proof.
  intros H.
  apply Follow_cases in H as (f & r & id & e & w1 & oevs & Ho & H).
  exists f, r, id, e, w1, oevs. split; [exact Ho|].
  destruct e as [err|]; [|exact H].
  destruct H as (-> & -> & ->). do 3 (split; [reflexivity|]).
  apply openFile_cases in Ho as (_ & _ & _ & Hev).
  destruct Hev as [->|[(_ & g & ->)|[(_ & g & p & ->)|(_ & g & ->)]]];
    reflexivity.
Qed.

(** X4. [Follow] moves to the end of the file that it has opened exactly
    when the options as applied have [fromStart] false: so it does without
    options, and it does not when [WithFromStart(true)] is the last
    option. *)
Theorem Follow_seeks_to_end_unless_fromStart path opts w fd w' evs g :
  Follow path opts w = (fd, w', evs) ->
  In (EvOpen path (Ok g)) evs ->
  ((exists off wh a, In (EvSeek g off wh a) evs) <->
   fromStart (applied opts) = false) /\
  (forall off wh a, In (EvSeek g off wh a) evs -> off = 0 /\ wh = SeekEnd) /\
  fromStart (applied []) = false /\
  fromStart (applied (opts ++ [WithFromStart true])) = true.
Proof.
  intros H Hin.
  assert (fromStart (applied (opts ++ [WithFromStart true])) = true) as Hlast.
  { unfold applied. rewrite fold_left_app. reflexivity. }
  split; [|split; [|split; [reflexivity | exact Hlast]]].
  - apply Follow_cases in H as (f & r & id & e & w1 & oevs & Ho & H).
    apply openFile_cases in Ho. destruct e as [err|].
    + destruct H as (_ & _ & ->). destruct Ho as (_ & _ & _ & Hev).
      destruct Hev as [->|[(Hf & g' & ->)|[(Hf & g' & p & ->)|(Hf & g' & ->)]]];
        simpl in Hin; repeat (destruct Hin as [Hin|Hin]; try discriminate Hin);
        try contradiction; simplify_eq; rewrite Hf;
        (split; [intros (off & wh & a & Ha) | intros Hfalse]);
        first [ reflexivity | discriminate Hfalse
              | eexists _, _, _; simpl; eauto; fail
              | simpl in Ha; exfalso; intuition discriminate ].
    + destruct H as (l & d & -> & _).
      destruct Ho as (info & seeks & -> & _ & Hs).
      destruct (fromStart (applied opts)).
      * subst seeks. split; [|discriminate].
        intros (off & wh & a & Ha). simpl in Ha. exfalso. intuition discriminate.
      * destruct Hs as [p ->]. split; [reflexivity|]. intros _.
        simpl in Hin. destruct Hin as [Hin|Hin]; [|exfalso; intuition discriminate].
        simplify_eq. eexists _, _, _. simpl. eauto.
  - intros off wh a Ha.
    apply Follow_cases in H as (f & r & id & e & w1 & oevs & Ho & H).
    apply openFile_cases in Ho. destruct e as [err|].
    + destruct H as (_ & _ & ->). destruct Ho as (_ & _ & _ & Hev).
      destruct Hev as [->|[(Hf & g' & ->)|[(Hf & g' & p & ->)|(Hf & g' & ->)]]];
        simpl in Ha; repeat (destruct Ha as [Ha|Ha]; try discriminate Ha);
        try contradiction; simplify_eq; split; reflexivity.
    + destruct H as (l & d & -> & _).
      destruct Ho as (info & seeks & -> & _ & Hs).
      destruct (fromStart (applied opts)).
      * subst seeks. simpl in Ha. exfalso. intuition discriminate.
      * destruct Hs as [p ->]. simpl in Ha.
        repeat (destruct Ha as [Ha|Ha]; try discriminate Ha);
          try contradiction; simplify_eq; split; reflexivity.
Qed.

(** ** The state check, further *)

(** X7. When the path resolves to the identity that is held, the state
    check changes nothing: it opens and closes nothing and returns the
    file, the reader and the identity it was given, without error. *)
Theorem same_identity_is_not_reopened f r id path w res w' evs info :
  checkFileState f r id path w = (res, w', evs) ->
  In (EvStat path (Ok info)) evs ->
  getFileIdentity info = id ->
  res = (f, r, id, false, None) /\
  (forall p a, ~ In (EvOpen p a) evs) /\
  (forall g, ~ In (EvClose g) evs).
Proof.
  intros H Hin Hid. apply checkFileState_outcome in H.
  inversion H; subst; simpl in Hin;
    repeat (destruct Hin as [Hin|Hin]; try discriminate Hin);
    try contradiction; simplify_eq;
    try match goal with
    | Hr : rotated _ _ |- _ => destruct Hr as [Hr _]; contradiction
    end.
  split; [reflexivity|].
  split; [intros p a Ha | intros g Ha]; simpl in Ha; intuition discriminate.
Qed.

(** X8. The truncation check comes first and ends the state check: in a
    state check that seeks to the start of the file, the path is neither
    resolved nor opened and nothing is closed, so a rotation is looked for
    in a later check at the earliest. *)
Theorem truncation_ends_the_check f r id path w res w' evs a :
  checkFileState f r id path w = (res, w', evs) ->
  In (EvSeek f 0 SeekStart a) evs ->
  (forall p b, ~ In (EvStat p b) evs) /\
  (forall p b, ~ In (EvOpen p b) evs) /\
  (forall g, ~ In (EvClose g) evs) /\
  exists pos st,
    Size st < pos /\
    firstn 3 evs = [EvSeek f 0 SeekCurrent (Ok pos); EvFStat f (Ok st);
                    EvSeek f 0 SeekStart a].
Proof.
  intros H Hin. apply checkFileState_outcome in H.
  inversion H; subst; simpl in Hin;
    repeat (destruct Hin as [Hin|Hin]; try discriminate Hin);
    try contradiction; simplify_eq.
  all: split; [intros p b Hb; simpl in Hb; intuition discriminate|].
  all: split; [intros p b Hb; simpl in Hb; intuition discriminate|].
  all: split; [intros g Hb; simpl in Hb; intuition discriminate|].
  all: eexists _, _; split; [eassumption | reflexivity].
Qed.

(** X9. No file that the state check opens is lost: it is returned as the
    file to hold, with [reopened] true and no error, or it has been closed
    and the check returns an error; and the file that was held is closed
    exactly in the checks whose open succeeded. *)
Theorem checkFileState_accounts_for_files f r id path w f' r' id' b e w' evs :
  checkFileState f r id path w = ((f', r', id', b, e), w', evs) ->
  (forall g, In (EvOpen path (Ok g)) evs ->
     (f' = g /\ b = true /\ e = None) \/
     (In (EvClose g) evs /\ b = false /\ e <> None)) /\
  (In (EvClose f) evs -> exists g, In (EvOpen path (Ok g)) evs) /\
  (b = false -> f' = f /\ r' = r /\ id' = id).
Proof.
  intros H. apply checkFileState_outcome in H.
  inversion H; subst.
  all: split; [intros g Hin; simpl in Hin;
               repeat (destruct Hin as [Hin|Hin]; try discriminate Hin);
               try contradiction; simplify_eq|].
  all: try (left; auto; fail).
  all: try (right; simpl; split; [auto 10 | split; [reflexivity | discriminate]]; fail).
  all: split; [intros Hin; simpl in Hin;
               repeat (destruct Hin as [Hin|Hin]; try discriminate Hin);
               try contradiction; simplify_eq; eexists; simpl; eauto 10
              | intros; try discriminate; auto].
Qed.

(** ** The loop, run after run *)

Lemma loop_outcome_of n t path o : forall v w res w' evs,
  loop n t path o v w = (res, w', evs) ->
  loop_outcome t path o v evs res.
Proof.
  induction n as [|n IH]; intros v w res w' evs H; simpl in H.
  - unfold ret in H. simplify_eq. constructor.
  - unfold bind in H.
    destruct (iteration t path o v w) as [[r1 w1] e1] eqn:Hit.
    apply iteration_outcome in Hit. destruct r1 as [v1|e].
    + destruct (loop n t path o v1 w1) as [[r2 w2] e2] eqn:Hl.
      simplify_eq. eapply lo_next; eauto.
    + unfold ret in H. simplify_eq. rewrite app_nil_r.
      apply lo_returned. assumption.
Qed.

(** The loop returns what its last iteration returns. *)
Lemma loop_outcome_last_iteration t path o v evs e :
  loop_outcome t path o v evs (inr e) ->
  exists pre v1 ievs,
    evs = (pre ++ ievs)%list /\ iter_outcome t path o v1 ievs (inr e).
Proof.
  intros H. remember (inr e) as res eqn:E.
  induction H as [v|v evs e' Hit|v evs v' evs' res Hit Hl IH]; subst.
  - discriminate.
  - injection E as ->. exists [], v, evs. split; [reflexivity | assumption].
  - destruct (IH eq_refl) as (pre & v1 & ievs & -> & Hlast).
    exists (evs ++ pre)%list, v1, ievs. rewrite app_assoc. auto.
Qed.

(** X10. The loop returns a nil error only when its last call has observed
    the cancellation: the check of [ctx.Done()] that fired or the send that
    gave way to it. *)
Theorem tailLoop_nil_only_on_cancellation n t f r id path o w w' evs :
  tailLoop n t f r id path o w = (inr None, w', evs) ->
  cancel_observed evs.
Proof.
  intros H. apply loop_outcome_of, loop_outcome_last_iteration in H
    as (pre & v1 & ievs & -> & Hit).
  unfold cancel_observed. rewrite last_app.
  inversion Hit; subst.
  - exists (EvCtxDone true). split; reflexivity.
  - destruct sent; [discriminate|].
    eexists. split; reflexivity.
Qed.

(** X11. An error that the loop returns is the error of the call that
    failed last, under one of five prefixes: a read that failed with
    something else than [io.EOF], the query of the position, the stat of
    the held file, the seek to the start after a truncation, or the stat of
    the file opened after a rotation, which is then closed. *)
Theorem tailLoop_errors n t f r id path o w err w' evs :
  tailLoop n t f r id path o w = (inr (Some err), w', evs) ->
  exists prefix inner,
    err = Wrapped prefix inner /\ In prefix loop_error_prefixes /\
    ((prefix = "read error: " /\ inner <> io_EOF /\
      exists rd seg, last evs = Some (EvReadString rd seg (Some inner))) \/
     (prefix = "seek error: " /\
      exists g, last evs = Some (EvSeek g 0 SeekCurrent (Fail inner))) \/
     (prefix = "stat error: " /\
      exists g, last evs = Some (EvFStat g (Fail inner))) \/
     (prefix = "seek after truncation: " /\
      exists g, last evs = Some (EvSeek g 0 SeekStart (Fail inner))) \/
     (prefix = "stat new file: " /\
      exists g pre, evs = (pre ++ [EvFStat g (Fail inner); EvClose g])%list)).
Proof.
  intros H. apply loop_outcome_of, loop_outcome_last_iteration in H
    as (pre & v1 & ievs & -> & Hit).
  inversion Hit; subst.
  - eexists _, _. split; [reflexivity|]. split; [simpl; auto|].
    left. split; [reflexivity|]. split.
    + intros ->. discriminate.
    + eexists _, _. rewrite last_app. reflexivity.
  - match goal with Hc : check_outcome _ _ _ _ _ _ |- _ =>
      inversion Hc; subst end;
      (eexists _, _; split; [reflexivity|]; split; [simpl; auto 10|]).
    + right; left. split; [reflexivity|]. eexists. rewrite last_app. reflexivity.
    + right; right; left. split; [reflexivity|].
      eexists. rewrite last_app. reflexivity.
    + right; right; right; left. split; [reflexivity|].
      eexists. rewrite last_app. reflexivity.
    + right; right; right; right. split; [reflexivity|].
      eexists _, (pre ++ [_; _; _; _; _; _; _; _])%list.
      rewrite <- app_assoc. reflexivity.
  - destruct sent; discriminate.
Qed.

(** *** Nothing lost, nothing invented *)

Lemma offered_app a b : offered (a ++ b) = (offered a ++ offered b)%list.
Proof.
  induction a as [|e a IH]; simpl; [reflexivity|].
  destruct e; simpl; rewrite ?IH; reflexivity.
Qed.

Lemma completed_app acc a b :
  completed acc (a ++ b) =
  (completed acc a ++ completed (read_since_terminator acc a) b)%list.
Proof.
  revert acc. induction a as [|e a IH]; intros acc; simpl; [reflexivity|].
  destruct e; try apply IH.
  destruct e; simpl; rewrite IH; [reflexivity|].
  rewrite app_assoc. reflexivity.
Qed.

Lemma check_outcome_quiet f r id path cevs res :
  check_outcome f r id path cevs res ->
  offered cevs = [] /\ forall acc, completed acc cevs = [].
Proof. inversion 1; subst; split; reflexivity. Qed.

Lemma iter_outcome_offers t path o v evs res :
  iter_outcome t path o v evs res ->
  offered evs = completed (partialLine v) evs.
Proof.
  inversion 1; subst; simpl; try reflexivity.
  1-3: rewrite ?offered_app, ?completed_app;
    match goal with Hc : check_outcome _ _ _ _ _ _ |- _ =>
      destruct (check_outcome_quiet _ _ _ _ _ _ Hc) as [-> ->] end;
    reflexivity.
  - match goal with Hc : TrimRight _ _ = EmptyString |- _ => rewrite Hc end.
    reflexivity.
  - match goal with Hc : TrimRight _ _ <> EmptyString |- _ =>
      apply is_empty_false in Hc; rewrite Hc end.
    reflexivity.
Qed.

Lemma loop_outcome_offers t path o v evs res :
  loop_outcome t path o v evs res ->
  offered evs = completed (partialLine v) evs.
Proof.
  induction 1 as [v|v evs e Hit|v evs v' evs' res Hit Hl IH].
  - reflexivity.
  - eapply iter_outcome_offers; eassumption.
  - rewrite offered_app, completed_app, IH.
    rewrite (iter_outcome_offers _ _ _ _ _ _ Hit).
    destruct (iter_outcome_assembles _ _ _ _ _ _ Hit) as [_ Hp].
    rewrite (Hp v' eq_refl). reflexivity.
Qed.

(** X12. The loop hands to the channel exactly the lines that its reads
    complete, in the order of the reads, each once: no completed line with
    a text is skipped, none is handed over twice, and nothing else is
    handed over. *)
Theorem sends_are_the_completed_lines n t f r id path o w res w' evs :
  tailLoop n t f r id path o w = (res, w', evs) ->
  offered evs = completed EmptyString evs.
Proof.
  intros H. apply loop_outcome_of, loop_outcome_offers in H. exact H.
Qed.

(** *** After the cancellation *)

Lemma no_cancel_split l pre c post :
  forallb (fun e => negb (is_cancel e)) l = true ->
  l = (pre ++ c :: post)%list -> is_cancel c = true -> False.
Proof.
  intros H -> Hc. rewrite forallb_app in H. simpl in H.
  rewrite Hc in H. simpl in H. rewrite andb_false_r in H. discriminate.
Qed.

Lemma check_outcome_no_cancel f r id path cevs res :
  check_outcome f r id path cevs res ->
  forallb (fun e => negb (is_cancel e)) cevs = true.
Proof. inversion 1; subst; reflexivity. Qed.

Lemma iter_outcome_goes_on t path o v evs v' :
  iter_outcome t path o v evs (inl v') ->
  forallb (fun e => negb (is_cancel e)) evs = true.
Proof.
  inversion 1; subst; simpl; rewrite ?forallb_app;
    try (erewrite check_outcome_no_cancel by eassumption); try reflexivity.
  destruct sent; [reflexivity | discriminate].
Qed.

Lemma iter_outcome_cancel_last t path o v evs e pre c post :
  iter_outcome t path o v evs (inr e) ->
  evs = (pre ++ c :: post)%list -> is_cancel c = true ->
  post = [] /\ e = None.
Proof.
  inversion 1; subst; intros E Hc.
  - destruct pre as [|x pre]; simplify_eq/=; [auto|].
    destruct pre; discriminate.
  - exfalso. eapply (no_cancel_split _ pre c post); [|exact E|exact Hc].
    reflexivity.
  - exfalso. eapply (no_cancel_split _ pre c post); [|exact E|exact Hc].
    simpl. eapply check_outcome_no_cancel; eassumption.
  - destruct sent; [discriminate|]. simplify_eq.
    do 4 (destruct pre as [|? pre]; simplify_eq/=; try discriminate Hc).
    + auto.
    + destruct pre; discriminate.
Qed.

(** X13. An observation of the cancellation is the last call of the loop:
    once the check of [ctx.Done()] has fired, or a send has given way to
    it, the loop returns nil without another call, so that at most one line
    is handed over and not sent. *)
Theorem cancellation_stops_the_loop n t f r id path o w res w' evs pre c post :
  tailLoop n t f r id path o w = (res, w', evs) ->
  evs = (pre ++ c :: post)%list -> is_cancel c = true ->
  post = [] /\ res = inr None.
Proof.
  intros H. apply loop_outcome_of in H. revert pre.
  induction H as [v|v evs e Hit|v evs v' evs' res Hit Hl IH]; intros pre E Hc.
  - destruct pre; discriminate.
  - destruct (iter_outcome_cancel_last _ _ _ _ _ _ _ _ _ Hit E Hc) as [-> ->].
    auto.
  - apply app_eq_app in E as [k [[-> E]|[-> E]]].
    + destruct k as [|x k]; simpl in E.
      * apply (IH [] (eq_sym E) Hc).
      * injection E as <- _. exfalso.
        eapply (no_cancel_split _ pre c k);
          [eapply iter_outcome_goes_on; eassumption | reflexivity | exact Hc].
    + apply (IH k E Hc).
Qed.

(** *** Reads and waits *)

Lemma check_outcome_no_read f r id path cevs res :
  check_outcome f r id path cevs res ->
  forallb (fun e => negb (is_read e)) cevs = true.
Proof. inversion 1; subst; reflexivity. Qed.

Lemma no_read_split l pre rd seg e post :
  forallb (fun e => negb (is_read e)) l = true ->
  l = (pre ++ EvReadString rd seg e :: post)%list -> False.
Proof.
  intros H ->. rewrite forallb_app in H. simpl in H.
  rewrite andb_false_r in H. discriminate.
Qed.

(** An iteration is the check that fired, or the check that did not, one
    read, and calls that are not reads. *)
Lemma iter_outcome_one_read t path o v evs res :
  iter_outcome t path o v evs res ->
  evs = [EvCtxDone true] \/
  exists seg e rest,
    evs = EvCtxDone false :: EvReadString (reader v) seg e :: rest /\
    forallb (fun e => negb (is_read e)) rest = true.
Proof.
  inversion 1; subst; [left; reflexivity|right..];
    eexists _, _, _; (split; [reflexivity|]); simpl; rewrite ?forallb_app;
    try (erewrite check_outcome_no_read by eassumption); reflexivity.
Qed.

Lemma iter_outcome_read_checked t path o v evs res pre rd seg e post :
  iter_outcome t path o v evs res ->
  evs = (pre ++ EvReadString rd seg e :: post)%list ->
  pre = [EvCtxDone false] /\ rd = reader v.
Proof.
  intros H E. apply iter_outcome_one_read in H as [->|(seg' & e' & rest & -> & Hr)].
  - destruct pre as [|x pre]; [discriminate|]. destruct pre; discriminate.
  - destruct pre as [|x pre]; [discriminate|]. injection E as <- E.
    destruct pre as [|y pre].
    + injection E as <- _ _ _. auto.
    + injection E as _ E. exfalso. eapply no_read_split; eassumption.
Qed.

(** X14. Every read of the loop comes right after a check of
    [ctx.Done()] that did not fire: the loop never reads without having
    looked for the cancellation since its previous call. *)
Theorem reads_follow_the_cancellation_check n t f r id path o w res w' evs
    pre rd seg e post :
  tailLoop n t f r id path o w = (res, w', evs) ->
  evs = (pre ++ EvReadString rd seg e :: post)%list ->
  exists pre', pre = (pre' ++ [EvCtxDone false])%list.
Proof.
  intros H. apply loop_outcome_of in H. revert pre.
  induction H as [v|v evs e' Hit|v evs v' evs' res Hit Hl IH]; intros pre E.
  - destruct pre; discriminate.
  - destruct (iter_outcome_read_checked _ _ _ _ _ _ _ _ _ _ _ Hit E) as [-> _].
    exists []. reflexivity.
  - apply app_eq_app in E as [k [[-> E]|[-> E]]].
    + destruct k as [|x k]; simpl in E.
      * destruct (IH [] (eq_sym E)) as [pre' Hp]. destruct pre'; discriminate.
      * injection E as <- ->.
        destruct (iter_outcome_read_checked _ _ _ _ _ _ _ _ _ _ _ Hit eq_refl)
          as [-> _].
        exists []. reflexivity.
    + destruct (IH k E) as [pre' ->].
      exists (evs ++ pre')%list. rewrite app_assoc. reflexivity.
Qed.

Lemma waits_after_eof_app owed a b :
  waits_after_eof owed (a ++ b) =
  waits_after_eof owed a && waits_after_eof (owed_after owed a) b.
Proof.
  revert owed. induction a as [|e a IH]; intros owed; simpl; [reflexivity|].
  destruct e; rewrite ?IH; try reflexivity.
  rewrite andb_assoc. reflexivity.
Qed.

Lemma owed_after_app owed a b :
  owed_after owed (a ++ b) = owed_after (owed_after owed a) b.
Proof.
  revert owed. induction a as [|e a IH]; intros owed; simpl; [reflexivity|].
  destruct e; apply IH.
Qed.

Lemma check_outcome_waits f r id path cevs res owed :
  check_outcome f r id path cevs res ->
  waits_after_eof owed cevs = true /\ owed_after owed cevs = owed.
Proof. inversion 1; subst; split; reflexivity. Qed.

Lemma iter_outcome_waits t path o v evs res :
  iter_outcome t path o v evs res ->
  waits_after_eof false evs = true /\
  (forall v', res = inl v' -> owed_after false evs = false).
Proof.
  inversion 1; subst; simpl;
    rewrite ?waits_after_eof_app, ?owed_after_app;
    try match goal with Hc : check_outcome _ _ _ _ _ _ |- _ =>
      destruct (check_outcome_waits _ _ _ _ _ _ true Hc) as [-> ->] end;
    simpl; split; try reflexivity; try (intros; discriminate).
Qed.

Lemma loop_outcome_waits t path o v evs res :
  loop_outcome t path o v evs res -> waits_after_eof false evs = true.
Proof.
  induction 1 as [v|v evs e Hit|v evs v' evs' res Hit Hl IH].
  - reflexivity.
  - apply (iter_outcome_waits _ _ _ _ _ _ Hit).
  - destruct (iter_outcome_waits _ _ _ _ _ _ Hit) as [Hw Ho].
    rewrite waits_after_eof_app, Hw, (Ho v' eq_refl). exact IH.
Qed.

Lemma owed_wait_is_made mid : forall rd seg e post,
  waits_after_eof true (mid ++ EvReadString rd seg e :: post) = true ->
  exists nch d, In (EvWait nch d) mid.
Proof.
  induction mid as [|x mid IH]; intros rd seg e post H; simpl in H.
  - discriminate.
  - destruct x; simpl in H; try discriminate;
      try (destruct (IH _ _ _ _ H) as (nch & d & Hin);
           exists nch, d; right; exact Hin).
    eexists _, _. left. reflexivity.
Qed.

Lemma waits_after_eof_suffix pre : forall owed rest,
  waits_after_eof owed (pre ++ rest) = true ->
  waits_after_eof (owed_after owed pre) rest = true.
Proof.
  intros owed rest H. rewrite waits_after_eof_app in H.
  apply andb_true_iff in H as [_ H]. exact H.
Qed.

(** X15. The loop does not spin at the end of the file: between a read
    that returned [io.EOF] and the next read there is always a wait.  After
    a read that returned a line the next read may follow at once. *)
Theorem waits_between_reads_at_eof n t f r id path o w res w' evs
    pre rd seg mid rd' seg' e' post :
  tailLoop n t f r id path o w = (res, w', evs) ->
  evs = (pre ++ EvReadString rd seg (Some io_EOF)
             :: mid ++ EvReadString rd' seg' e' :: post)%list ->
  exists nch d, In (EvWait nch d) mid.
Proof.
  intros H E. apply loop_outcome_of, loop_outcome_waits in H. subst evs.
  apply waits_after_eof_suffix in H. simpl in H.
  apply andb_true_iff in H as [_ H].
  eapply owed_wait_is_made. exact H.
Qed.

(** *** The file that is held *)

(** What is open and what is held after some iterations from [v]: the
    file of [v] is still held or has been closed, every file opened since is
    held or has been closed, and the identity held is that of [v], with its
    file and reader, or one taken by a stat of the file now held. *)
Definition holds_one_file {pf : Platform} (v : LoopVars) (evs : list Event)
    (v' : LoopVars) : Prop :=
  (file v' = file v \/ In (EvClose (file v)) evs) /\
  (forall p g, In (EvOpen p (Ok g)) evs -> g = file v' \/ In (EvClose g) evs) /\
  ((file v' = file v /\ reader v' = reader v /\ fileID v' = fileID v) \/
   exists info,
     In (EvFStat (file v') (Ok info)) evs /\
     fileID v' = getFileIdentity info).

Lemma iter_outcome_holds t path o v evs v' :
  iter_outcome t path o v evs (inl v') -> holds_one_file v evs v'.
Proof.
  unfold holds_one_file. inversion 1; subst; simpl.
  - match goal with Hc : check_outcome _ _ _ _ _ _ |- _ =>
      inversion Hc; subst end;
      (split; [left; reflexivity|]);
      (split; [|left; auto]);
      intros p g Hin; simpl in Hin; exfalso; intuition discriminate.
  - match goal with Hc : check_outcome _ _ _ _ _ _ |- _ =>
      inversion Hc; subst end.
    split; [right; simpl; auto 10|].
    split.
    + intros p g Hin. simpl in Hin.
      repeat (destruct Hin as [Hin|Hin]; try discriminate Hin);
        try contradiction. simplify_eq. left. reflexivity.
    + right. eexists. split; [|reflexivity]. simpl. auto 12.
  - split; [left; reflexivity|]. split; [|left; auto].
    intros p g Hin. simpl in Hin. exfalso. intuition discriminate.
  - destruct sent; [|discriminate]. simplify_eq. simpl.
    split; [left; reflexivity|]. split; [|left; auto].
    intros p g Hin. simpl in Hin. exfalso. intuition discriminate.
Qed.

Lemma holds_one_file_trans v a v1 b v2 :
  holds_one_file v a v1 -> holds_one_file v1 b v2 ->
  holds_one_file v (a ++ b) v2.
Proof.
  unfold holds_one_file.
  intros (Ha1 & Ha2 & Ha3) (Hb1 & Hb2 & Hb3). split; [|split].
  - destruct Ha1 as [Ha1|Ha1]; [|right; apply in_or_app; auto].
    rewrite <- Ha1. destruct Hb1 as [Hb1|Hb1]; [left; exact Hb1|].
    right. apply in_or_app. auto.
  - intros p g Hin. apply in_app_or in Hin as [Hin|Hin].
    + destruct (Ha2 p g Hin) as [->|Hc]; [|right; apply in_or_app; auto].
      destruct Hb1 as [Hb1|Hb1]; [left; symmetry; exact Hb1|].
      right. apply in_or_app. auto.
    + destruct (Hb2 p g Hin) as [->|Hc]; [left; reflexivity|].
      right. apply in_or_app. auto.
  - destruct Hb3 as [(Hf & Hr & Hi)|(info & Hin & Hi)].
    + destruct Ha3 as [(Hf' & Hr' & Hi')|(info & Hin & Hi')].
      * left. rewrite Hf, Hr, Hi. auto.
      * right. exists info. rewrite Hf, Hi. split; [|exact Hi'].
        apply in_or_app. auto.
    + right. exists info. split; [|exact Hi]. apply in_or_app. auto.
Qed.

Lemma loop_outcome_holds t path o v evs v' :
  loop_outcome t path o v evs (inl v') -> holds_one_file v evs v'.
Proof.
  intros H. remember (inl v') as res eqn:E. revert v' E.
  induction H as [v|v evs e Hit|v evs v1 evs' res Hit Hl IH]; intros v' E.
  - injection E as <-. unfold holds_one_file.
    split; [left; reflexivity|]. split; [intros p g []|left; auto].
  - discriminate.
  - eapply holds_one_file_trans.
    + eapply iter_outcome_holds. eassumption.
    + apply IH. exact E.
Qed.

(** X16. Between two iterations the loop holds one file and all others
    are closed: the file it started with is still the one held or has been
    closed, and every file opened by the loop is the one held or has been
    closed. *)
Theorem loop_holds_one_file n t f r id path o w v' w' evs :
  tailLoop n t f r id path o w = (inl v', w', evs) ->
  (file v' = f \/ In (EvClose f) evs) /\
  (forall p g, In (EvOpen p (Ok g)) evs -> g = file v' \/ In (EvClose g) evs).
Proof.
  intros H. apply loop_outcome_of, loop_outcome_holds in H
    as (H1 & H2 & _). simpl in H1. auto.
Qed.

(** X17. The identity that the loop holds is always that of the file it
    holds, read through that file: it is the identity the loop was started
    with, together with the file and the reader it was started with, or it
    comes from a stat of the file now held, never from the stat of the
    path. *)
Theorem held_identity_is_of_held_file n t f r id path o w v' w' evs :
  tailLoop n t f r id path o w = (inl v', w', evs) ->
  (file v' = f /\ reader v' = r /\ fileID v' = id) \/
  exists info,
    In (EvFStat (file v') (Ok info)) evs /\ fileID v' = getFileIdentity info.
Proof.
  intros H. apply loop_outcome_of, loop_outcome_holds in H
    as (_ & _ & H3). exact H3.
Qed.

(** *** The task *)

Lemma check_outcome_only_sends f r id path cevs res ch :
  check_outcome f r id path cevs res ->
  forallb (only_sends_on ch) cevs = true.
Proof. inversion 1; subst; reflexivity. Qed.

Lemma iter_outcome_only_sends t path o v evs res :
  iter_outcome t path o v evs res ->
  forallb (only_sends_on (lines t)) evs = true.
Proof.
  inversion 1; subst; simpl; rewrite ?forallb_app;
    try (erewrite check_outcome_only_sends by eassumption);
    rewrite ?Nat.eqb_refl; reflexivity.
Qed.

Lemma loop_outcome_only_sends t path o v evs res :
  loop_outcome t path o v evs res ->
  forallb (only_sends_on (lines t)) evs = true.
Proof.
  induction 1 as [v|v evs e Hit|v evs v' evs' res Hit Hl IH].
  - reflexivity.
  - eapply iter_outcome_only_sends; eassumption.
  - rewrite forallb_app, IH.
    erewrite iter_outcome_only_sends by eassumption. reflexivity.
Qed.

(** X18. The task of [Follow] touches channels in one way while its loop
    runs: it sends on [lines]; it makes, closes and starts nothing.  When
    the loop has returned, the last three calls of the task are the close
    of the file that [Follow] opened, the close of [lines] and the close of
    [done], in this order, so that each channel is closed once, nothing is
    sent on [lines] after its close, and [done] is closed last.  The
    tailer keeps its channels, and its error is the one it had when the
    loop returned nil and the error of the loop otherwise. *)
Theorem followTask_shutdown t f r id path o n w res w' evs :
  followTask t f r id path o n w = (res, w', evs) ->
  match res with
  | None => forallb (only_sends_on (lines t)) evs = true
  | Some t' =>
      exists e wl levs,
        tailLoop n t f r id path o w = (inr e, wl, levs) /\
        evs = (levs ++ [EvClose f; EvCloseChan (lines t);
                        EvCloseChan (done t)])%list /\
        forallb (only_sends_on (lines t)) levs = true /\
        Lines t' = Lines t /\ Done t' = Done t /\
        Err t' = match e with Some err => Some err | None => Err t end
  end.
Proof.
  intros H. destruct res as [t'|].
  - apply followTask_ends in H as (e & wl & levs & Hl & -> & ->).
    exists e, wl, levs. split; [exact Hl|]. split; [reflexivity|].
    split; [apply loop_outcome_of, loop_outcome_only_sends in Hl; exact Hl|].
    destruct e; auto.
  - unfold followTask, bind in H.
    destruct (tailLoop n t f r id path o w) as [[res wl] levs] eqn:Hl.
    destruct res as [v|e]; simpl in H.
    + unfold ret in H. simplify_eq. rewrite app_nil_r.
      apply loop_outcome_of, loop_outcome_only_sends in Hl. exact Hl.
    + destruct e; simpl in H; discriminate.
Qed.

(** *** The waits and the opens *)

Lemma waits_as_refl o :
  waits_as o (EvWait (notify o) (pollInterval o)) = true.
Proof.
  simpl. rewrite Z.eqb_refl. destruct (notify o); simpl;
    rewrite ?Nat.eqb_refl; reflexivity.
Qed.

Lemma check_outcome_waits_as f r id path cevs res o :
  check_outcome f r id path cevs res -> forallb (waits_as o) cevs = true.
Proof. inversion 1; subst; reflexivity. Qed.

Lemma iter_outcome_waits_as t path o v evs res :
  iter_outcome t path o v evs res -> forallb (waits_as o) evs = true.
Proof.
  inversion 1; subst; cbn [forallb app]; rewrite ?forallb_app;
    try (erewrite check_outcome_waits_as by eassumption);
    cbn [forallb]; rewrite ?waits_as_refl; reflexivity.
Qed.

Lemma waits_as_wait o n d :
  waits_as o (EvWait n d) = true -> n = notify o /\ d = pollInterval o.
Proof.
  simpl. rewrite andb_true_iff, Z.eqb_eq. intros [-> H]. split; [|reflexivity].
  destruct n, (notify o); try discriminate; [|reflexivity].
  apply Nat.eqb_eq in H. subst. reflexivity.
Qed.

(** X19. Every wait of the loop is the one the options ask for: bounded by
    their poll interval, and on their notify channel when there is one. *)
Theorem waits_use_the_options n t f r id path o w res w' evs nch d :
  tailLoop n t f r id path o w = (res, w', evs) ->
  In (EvWait nch d) evs ->
  nch = notify o /\ d = pollInterval o.
Proof.
  intros H Hin. apply loop_outcome_of in H.
  assert (forallb (waits_as o) evs = true) as Hall.
  { clear Hin. induction H as [v|v evs e Hit|v evs v' evs' res Hit Hl IH].
    - reflexivity.
    - eapply iter_outcome_waits_as; eassumption.
    - rewrite forallb_app, IH.
      erewrite iter_outcome_waits_as by eassumption. reflexivity. }
  rewrite forallb_forall in Hall. apply waits_as_wait, Hall, Hin.
Qed.

Lemma no_open_split l pre p a post :
  forallb (fun e => negb (is_open e)) l = true ->
  l = (pre ++ EvOpen p a :: post)%list -> False.
Proof.
  intros H ->. rewrite forallb_app in H. simpl in H.
  rewrite andb_false_r in H. discriminate.
Qed.

Lemma open_split_unique l q b rest pre p a post :
  forallb (fun e => negb (is_open e)) l = true ->
  forallb (fun e => negb (is_open e)) rest = true ->
  (l ++ EvOpen q b :: rest)%list = (pre ++ EvOpen p a :: post)%list ->
  pre = l /\ p = q.
Proof.
  intros Hl Hr E. apply app_eq_app in E as [k [[-> E]|[-> E]]].
  - destruct k as [|x k]; simpl in E.
    + injection E as -> _ _. rewrite app_nil_r. auto.
    + injection E as <- _. exfalso.
      eapply (no_open_split _ pre p a k); [exact Hl | reflexivity].
  - destruct k as [|x k]; simpl in E.
    + injection E as -> _ _. rewrite app_nil_r. auto.
    + injection E as _ E. exfalso. eapply no_open_split; eassumption.
Qed.

Lemma check_outcome_open f r id path cevs res :
  check_outcome f r id path cevs res ->
  forallb (fun e => negb (is_open e)) cevs = true \/
  exists pos st info a rest,
    cevs = ([EvSeek f 0 SeekCurrent (Ok pos); EvFStat f (Ok st);
             EvStat path (Ok info)] ++ EvOpen path a :: rest)%list /\
    forallb (fun e => negb (is_open e)) rest = true /\ pos <= Size st.
Proof.
  inversion 1; subst; try (left; reflexivity);
    right; eexists _, _, _, _, _; (split; [reflexivity|]);
    (split; [reflexivity | assumption]).
Qed.

Lemma iter_outcome_open_at_eof t path o v evs res pre p a post :
  iter_outcome t path o v evs res ->
  evs = (pre ++ EvOpen p a :: post)%list ->
  p = path /\ before_open path pre.
Proof.
  unfold before_open. intros H E. subst evs.
  assert (forall seg cevs tl cres,
            check_outcome (file v) (reader v) (fileID v) path cevs cres ->
            forallb (fun e => negb (is_open e)) tl = true ->
            ([EvCtxDone false; EvReadString (reader v) seg (Some io_EOF)]
               ++ cevs ++ tl)%list = (pre ++ EvOpen p a :: post)%list ->
            p = path /\ before_open path pre) as Hcheck.
  { intros seg cevs tl cres Hc Htl E'.
    apply check_outcome_open in Hc
      as [Hno|(pos & st & info & a' & rest & -> & Hrest & Hle)].
    - exfalso. eapply no_open_split; [|exact E'].
      simpl. rewrite forallb_app, Hno, Htl. reflexivity.
    - change ((([EvCtxDone false; EvReadString (reader v) seg (Some io_EOF);
                 EvSeek (file v) 0 SeekCurrent (Ok pos);
                 EvFStat (file v) (Ok st); EvStat path (Ok info)]
                ++ EvOpen path a' :: (rest ++ tl))%list
               = (pre ++ EvOpen p a :: post)%list)) in E'
        || (simpl in E'; rewrite <- app_assoc in E').
      apply open_split_unique in E' as [-> ->];
        [|reflexivity|rewrite forallb_app, Hrest, Htl; reflexivity].
      split; [reflexivity|].
      exists []; eexists _, _, _, _, _, _. split; [reflexivity | exact Hle]. }
  inversion H; subst;
    match goal with
    | E' : _ = (pre ++ EvOpen p a :: post)%list |- _ =>
        try (exfalso; eapply no_open_split; [|exact E']; reflexivity);
        rename E' into E
    end.
  - eapply (Hcheck _ _ []); [eassumption | reflexivity |].
    rewrite app_nil_r. exact E.
  - eapply Hcheck; [eassumption | | exact E]. reflexivity.
  - eapply Hcheck; [eassumption | | exact E]. reflexivity.
Qed.

(** X20. The loop opens the path only at the end of the file it holds: an
    open comes in an iteration whose read returned [io.EOF], after the
    position of the held file was found not beyond its size and the path
    was resolved.  As long as reads return lines the held file is read
    on, whatever happens to the path. *)
Theorem files_are_switched_at_eof n t f r id path o w res w' evs pre p a post :
  tailLoop n t f r id path o w = (res, w', evs) ->
  evs = (pre ++ EvOpen p a :: post)%list ->
  p = path /\ before_open path pre.
Proof.
  intros H. apply loop_outcome_of in H. revert pre.
  induction H as [v|v evs e Hit|v evs v' evs' res Hit Hl IH]; intros pre E.
  - destruct pre; discriminate.
  - eapply iter_outcome_open_at_eof; eassumption.
  - apply app_eq_app in E as [k [[-> E]|[-> E]]].
    + destruct k as [|x k]; simpl in E.
      * destruct (IH [] (eq_sym E)) as (_ & pre' & ? & ? & ? & ? & ? & ? & Hp & _).
        destruct pre'; discriminate.
      * injection E as <- ->.
        eapply iter_outcome_open_at_eof; [eassumption | reflexivity].
    + destruct (IH k E) as (-> & pre' & rd & seg & g & pos & st & info & -> & Hle).
      split; [reflexivity|].
      exists (evs ++ pre')%list, rd, seg, g, pos, st, info.
      rewrite <- app_assoc. auto.
Qed.

(** *** The text of a line *)

Lemma TrimRight_no_trailing cutset c : forall s,
  in_cutset cutset c = true -> ends_in c (TrimRight s cutset) = false.
Proof.
  intros s Hc. induction s as [|a s IH]; simpl; [reflexivity|].
  destruct (TrimRight s cutset) as [|b t] eqn:E.
  - destruct (in_cutset cutset a) eqn:Ha; simpl; [reflexivity|].
    destruct (Ascii.eqb a c) eqn:Hac; [|reflexivity].
    apply Ascii.eqb_eq in Hac. subst. congruence.
  - exact IH.
Qed.

Lemma TrimRight_tail cutset : forall s,
  exists tail,
    s = TrimRight s cutset +:+ tail /\ all_in cutset tail = true.
Proof.
  induction s as [|a s IH]; simpl.
  - exists EmptyString. split; reflexivity.
  - destruct IH as (tail & Hs & Ht).
    destruct (TrimRight s cutset) as [|b t] eqn:E.
    + destruct (in_cutset cutset a) eqn:Ha.
      * exists (String a tail). simpl in Hs. subst s. split; [reflexivity|].
        unfold all_in in *. simpl. rewrite Ha. exact Ht.
      * exists tail. simpl in *. subst s. split; [reflexivity | exact Ht].
    + exists tail. simpl in *. rewrite Hs at 1. split; [reflexivity | exact Ht].
Qed.

(** X21. The text of a line that is sent is what was read since the
    previous terminator without a tail made of CR and LF only: nothing else
    is removed, the text is not empty, and it ends neither in CR nor in
    LF. *)
Theorem sent_text_is_trimmed n t f r id path o w res w' evs pre ch l sent post :
  tailLoop n t f r id path o w = (res, w', evs) ->
  evs = (pre ++ EvSend ch l sent :: post)%list ->
  exists pre' rd seg tail,
    pre = (pre' ++ [EvReadString rd seg None; EvNow (Time_ l)])%list /\
    read_since_terminator EmptyString pre' +:+ seg = Text l +:+ tail /\
    all_in CRLF tail = true /\
    Text l <> EmptyString /\
    ends_in CR (Text l) = false /\ ends_in LF (Text l) = false.
Proof.
  intros H E. apply loop_assembles in H as [Hs _].
  destruct (Hs pre ch l sent post E) as (pre' & rd & seg & Hpre & _ & Ht & Hne).
  destruct (TrimRight_tail CRLF (read_since_terminator EmptyString pre' +:+ seg))
    as (tail & Hsplit & Htail).
  exists pre', rd, seg, tail. simpl in Ht. rewrite Ht.
  split; [exact Hpre|]. split; [exact Hsplit|]. split; [exact Htail|].
  split; [rewrite <- Ht; exact Hne|].
  split; apply TrimRight_no_trailing; reflexivity.
Qed.

End Facts.

(** ** Platforms without file identity *)

(** C4. On the platform without stable identifiers [getFileIdentity]
    always returns the zero identity; on any platform, when the identity
    resolved from the path is the zero identity [checkFileState] opens
    nothing and returns what it was given; and on that platform a state
    check never opens or closes a file, returns the file and reader it was
    given, and moves the position of the file (a seek to the start) only
    after it has found the size of the file smaller than the position. *)
Theorem no_rotation_without_identity :
  (forall info, @getFileIdentity windows info = zeroIdentity) /\
  (forall (pf : Platform) W (os : OS W) f r id path w cres w' evs info,
     checkFileState f r id path w = (cres, w', evs) ->
     In (EvStat path (Ok info)) evs ->
     getFileIdentity info = zeroIdentity ->
     cres = (f, r, id, false, None) /\ (forall p a, ~ In (EvOpen p a) evs)) /\
  (forall W (os : OS W) f r id path w f' r' id' b e w' evs,
     @checkFileState W os windows f r id path w = ((f', r', id', b, e), w', evs) ->
     f' = f /\ r' = r /\ id' = id /\ b = false /\
     (forall p a, ~ In (EvOpen p a) evs) /\
     (forall g, ~ In (EvClose g) evs) /\
     (forall g off wh a, In (EvSeek g off wh a) evs ->
        g = f /\ off = 0 /\
        (wh = SeekCurrent \/
         wh = SeekStart /\
         exists pos st,
           In (EvSeek f 0 SeekCurrent (Ok pos)) evs /\
           In (EvFStat f (Ok st)) evs /\ Size st < pos))).
Proof.
  split; [reflexivity|]. split.
  - intros pf W os f r id path w cres w' evs info H Hin Hzero.
    apply checkFileState_outcome in H.
    inversion H; subst; simpl in Hin;
      repeat (destruct Hin as [Hin|Hin]; try discriminate Hin);
      try contradiction; simplify_eq;
      try match goal with
      | Hr : rotated _ _ |- _ => destruct Hr as [_ Hr]; contradiction
      end;
      (split; [reflexivity|]); intros p a Ha; simpl in Ha;
      intuition discriminate.
  - intros W os f r id path w f' r' id' b e w' evs H.
    apply checkFileState_outcome in H.
    inversion H; subst;
      try match goal with
      | Hr : rotated _ _ |- _ =>
          destruct Hr as [_ Hr]; exfalso; apply Hr; reflexivity
      end.
    all: do 4 (split; [reflexivity|]); (split; [|split]).
    all: try (intros p a Ha; simpl in Ha; intuition discriminate; fail).
    all: try (intros g Ha; simpl in Ha; intuition discriminate; fail).
    all: intros g off wh a Ha; simpl in Ha;
      repeat (destruct Ha as [Ha|Ha]; try discriminate Ha);
      try contradiction; simplify_eq;
      (split; [reflexivity|]); (split; [reflexivity|]);
      first [ left; reflexivity
            | right; split; [reflexivity|];
              eexists _, _; simpl; eauto 10 ].
Qed.

(** ** Options *)

Section Options.
Context {W : Type} {os : OS W} {pf : Platform}.

Lemma loop_outcome_waits_as t path o v evs res :
  loop_outcome t path o v evs res -> forallb (waits_as o) evs = true.
Proof.
  induction 1 as [v|v evs e Hit|v evs v' evs' res Hit Hl IH].
  - reflexivity.
  - eapply iter_outcome_waits_as; eassumption.
  - rewrite forallb_app, IH.
    erewrite iter_outcome_waits_as by eassumption. reflexivity.
Qed.

Lemma check_outcome_readers f r id path cevs res :
  check_outcome f r id path cevs res ->
  forallb (reader_sized 4096) cevs = true.
Proof. inversion 1; subst; reflexivity. Qed.

Lemma iter_outcome_readers t path o v evs res :
  iter_outcome t path o v evs res ->
  forallb (reader_sized 4096) evs = true.
Proof.
  inversion 1; subst; cbn [forallb app]; rewrite ?forallb_app;
    try (erewrite check_outcome_readers by eassumption); reflexivity.
Qed.

Lemma loop_outcome_readers t path o v evs res :
  loop_outcome t path o v evs res ->
  forallb (reader_sized 4096) evs = true.
Proof.
  induction 1 as [v|v evs e Hit|v evs v' evs' res Hit Hl IH].
  - reflexivity.
  - eapply iter_outcome_readers; eassumption.
  - rewrite forallb_app, IH.
    erewrite iter_outcome_readers by eassumption. reflexivity.
Qed.

(** The events of the task are those of the loop, followed, when the loop
    has returned, by the three deferred calls. *)
Lemma followTask_events t f r id path o n w res w' evs :
  followTask t f r id path o n w = (res, w', evs) ->
  exists lres levs rest,
    loop_outcome t path o
      {| file := f; reader := r; fileID := id; partialLine := EmptyString |}
      levs lres /\
    evs = (levs ++ rest)%list /\
    (rest = [] \/
     rest = [EvClose f; EvCloseChan (lines t); EvCloseChan (done t)]).
Proof.
  unfold followTask. unfold bind at 1. intros H.
  destruct (tailLoop n t f r id path o w) as [[lres wl] levs] eqn:Hl.
  apply loop_outcome_of in Hl.
  exists lres, levs. destruct lres as [v|e].
  - unfold ret in H. simplify_eq. exists []. auto.
  - exists [EvClose f; EvCloseChan (lines t); EvCloseChan (done t)].
    split; [exact Hl|]. split; [|auto].
    destruct e; cbn in H; simplify_eq; reflexivity.
Qed.

(** X5. The options given to [Follow], applied in order to the defaults,
    are what the engine runs on.  The reader that [Follow] makes has the
    buffer size of the options.  In the task that [Follow] starts, for any
    number of iterations, every wait is bounded by the poll interval of the
    options and is on their notify channel, or on none when that channel is
    nil; a reader that the task makes, which it does after a rotation, has
    4096 bytes whatever the options say.  An option given last decides its
    field, a nil channel given to [WithNotify] included, and without
    options the engine waits 100 ms on no channel and reads through 4096
    bytes. *)
Theorem Follow_runs_on_the_options path opts w fd w' evs :
  Follow path opts w = (fd, w', evs) ->
  (forall g size rd,
     In (EvNewReader g size rd) evs -> size = bufSize (applied opts)) /\
  (forall task n w1 res w2 tevs,
     started fd = Some task ->
     task n w1 = (res, w2, tevs) ->
     (forall nch d, In (EvWait nch d) tevs ->
        nch = notify (applied opts) /\ d = pollInterval (applied opts)) /\
     (forall g size rd, In (EvNewReader g size rd) tevs -> size = 4096)) /\
  (forall ch, notify (applied (opts ++ [WithNotify ch])) = ch) /\
  (forall d, pollInterval (applied (opts ++ [WithPollInterval d])) = d) /\
  (forall size, bufSize (applied (opts ++ [WithBufSize size])) = size) /\
  notify (applied []) = None /\
  pollInterval (applied []) = 100 * Millisecond /\
  bufSize (applied []) = 4096.
Proof.
  intros H.
  apply Follow_cases in H as (f & r & id & e & w0 & oevs & Ho & H).
  apply openFile_cases in Ho.
  split; [|split].
  - intros g size rd Hin. destruct e as [err|].
    + destruct H as (_ & _ & ->). destruct Ho as (_ & _ & _ & Hev).
      destruct Hev as [->|[(_ & g' & ->)|[(_ & g' & p & ->)|(_ & g' & ->)]]];
        simpl in Hin; exfalso; intuition discriminate.
    + destruct H as (l & d & -> & _).
      destruct Ho as (info & seeks & -> & _ & Hs).
      destruct (fromStart (applied opts)).
      * subst seeks. simpl in Hin.
        repeat (destruct Hin as [Hin|Hin]; try discriminate Hin);
          try contradiction; simplify_eq; reflexivity.
      * destruct Hs as [p ->]. simpl in Hin.
        repeat (destruct Hin as [Hin|Hin]; try discriminate Hin);
          try contradiction; simplify_eq; reflexivity.
  - intros task n w1 res w2 tevs Hs Ht.
    destruct e as [err|].
    { destruct H as (-> & _). discriminate Hs. }
    destruct H as (l & d & _ & ->). cbn in Hs. injection Hs as <-.
    apply followTask_events in Ht as (lres & levs & rest & Hl & -> & Hrest).
    split.
    + intros nch d' Hin. apply waits_as_wait.
      apply in_app_or in Hin as [Hin|Hin].
      * apply loop_outcome_waits_as in Hl.
        rewrite forallb_forall in Hl. exact (Hl _ Hin).
      * destruct Hrest as [->| ->]; simpl in Hin; exfalso;
          intuition discriminate.
    + intros g size rd Hin.
      apply in_app_or in Hin as [Hin|Hin].
      * apply loop_outcome_readers in Hl.
        rewrite forallb_forall in Hl. specialize (Hl _ Hin).
        simpl in Hl. apply Z.eqb_eq in Hl. exact Hl.
      * destruct Hrest as [->| ->]; simpl in Hin; exfalso;
          intuition discriminate.
  - unfold applied.
    repeat split; intros; rewrite ?fold_left_app; reflexivity.
Qed.

End Options.

(** ** File identity *)

(** X6. The identity taken from the metadata of a file has both numbers in
    the range of [uint64]; it is the device and inode themselves when these
    are in that range; it does not depend on the size, so that a file that
    grows or shrinks keeps its identity; and it is the zero identity
    exactly when the metadata carry no [Stat_t] or when device and inode
    are both zero modulo 2^64. *)
Theorem getFileIdentity_unix_spec :
  (forall info,
     0 <= dev (getFileIdentity_unix info) < 2 ^ 64 /\
     0 <= ino (getFileIdentity_unix info) < 2 ^ 64) /\
  (forall info st,
     Sys info = Some st ->
     0 <= Dev st < 2 ^ 64 -> 0 <= Ino st < 2 ^ 64 ->
     getFileIdentity_unix info = {| dev := Dev st; ino := Ino st |}) /\
  (forall a b, Sys a = Sys b -> getFileIdentity_unix a = getFileIdentity_unix b) /\
  (forall info,
     getFileIdentity_unix info = zeroIdentity <->
     Sys info = None \/
     exists st, Sys info = Some st /\
                Dev st mod 2 ^ 64 = 0 /\ Ino st mod 2 ^ 64 = 0).
Proof.
  split; [|split; [|split]].
  - intros info. unfold getFileIdentity_unix, uint64.
    destruct (Sys info) as [st|]; simpl.
    + split; apply Z.mod_pos_bound; lia.
    + lia.
  - intros info st Hs Hd Hi. unfold getFileIdentity_unix, uint64. rewrite Hs.
    rewrite !Z.mod_small by assumption. reflexivity.
  - intros a b H. unfold getFileIdentity_unix. rewrite H. reflexivity.
  - intros info. unfold getFileIdentity_unix, uint64, zeroIdentity.
    destruct (Sys info) as [st|]; split.
    + intros [= Hd Hi]. right. exists st. auto.
    + intros [H|(st' & [= <-] & Hd & Hi)]; [discriminate|].
      rewrite Hd, Hi. reflexivity.
    + auto.
    + reflexivity.
Qed.

(** * The engine at work on files in memory *)

(** C1, the claim as stated fails: four bytes without terminator are read,
    the file is truncated to nothing, the engine detects it and seeks to
    the start, a new line is written, and the line that is sent carries
    the four bytes read before the truncation. *)
Lemma truncation_keeps_partial_counterexample :
  match MemFS.follow_and_run (pf := unix) "app.log" [WithFromStart true] 4
          MemFS.truncation_story with
  | Some (_, w, evs) =>
      evs =
        [EvCtxDone false; EvReadString 11 (line "keep") None; EvNow 0;
         EvSend 12 {| Text := "keep"; Time_ := 0 |} true;
         EvCtxDone false; EvReadString 11 "part" (Some io_EOF);
         EvSeek 10 0 SeekCurrent (Ok 9);
         EvFStat 10 (Ok {| Size := 9; Sys := Some {| Dev := 1; Ino := 7 |} |});
         EvStat "app.log"
           (Ok {| Size := 9; Sys := Some {| Dev := 1; Ino := 7 |} |});
         EvReset 11 10; EvWait None 100000000;
         EvCtxDone false; EvReadString 11 EmptyString (Some io_EOF);
         EvSeek 10 0 SeekCurrent (Ok 9);
         EvFStat 10 (Ok {| Size := 0; Sys := Some {| Dev := 1; Ino := 7 |} |});
         EvSeek 10 0 SeekStart (Ok 0); EvReset 11 10; EvReset 11 10;
         EvWait None 100000000;
         EvCtxDone false; EvReadString 11 (line "new") None; EvNow 1;
         EvSend 12 {| Text := "partnew"; Time_ := 1 |} true] /\
      MemFS.received 12 w = ["keep"; "partnew"]
  | None => False
  end.
Proof. vm_compute. split; reflexivity. Qed.

(** The same in one iteration: the truncation is detected and
    [partialLine] is what it was. *)
Lemma truncation_does_not_discard :
  ~ (forall t path o v (w : MemFS.World) v' w' evs,
       iteration (pf := unix) t path o v w = (inl v', w', evs) ->
       (exists p, In (EvSeek (file v) 0 SeekStart (Ok p)) evs) ->
       partialLine v' = EmptyString).
Proof.
  intros H.
  pose (out := iteration (pf := unix) MemFS.tailer0 "app.log" defaults
                 (MemFS.held "part") MemFS.truncated).
  assert (out = (inl (MemFS.held "part"), out.1.2, out.2)) as E
    by (vm_compute; reflexivity).
  specialize (H _ _ _ _ _ _ _ _ E).
  assert ("part" = EmptyString) as K; [|discriminate K].
  apply H. exists 0. vm_compute. auto 10.
Qed.

(** C9, the handle that is held is not released: the file is rotated,
    the engine opens the new file as 15 and closes the old one, 10; at the
    cancellation the deferred close is, again, of 10, and when [done] is
    closed the file 15 is still open. *)
Lemma rotation_leaves_handle_open :
  match MemFS.follow_and_run (pf := unix) "app.log" [WithFromStart true] 6
          MemFS.rotation_story with
  | Some (t, w, evs) =>
      t = Some MemFS.tailer0 /\
      evs =
        [EvCtxDone false; EvReadString 11 (line "one") None; EvNow 0;
         EvSend 12 {| Text := "one"; Time_ := 0 |} true;
         EvCtxDone false; EvReadString 11 EmptyString (Some io_EOF);
         EvSeek 10 0 SeekCurrent (Ok 4);
         EvFStat 10 (Ok {| Size := 4; Sys := Some {| Dev := 1; Ino := 7 |} |});
         EvStat "app.log"
           (Ok {| Size := 4; Sys := Some {| Dev := 1; Ino := 7 |} |});
         EvReset 11 10; EvWait None 100000000;
         EvCtxDone false; EvReadString 11 EmptyString (Some io_EOF);
         EvSeek 10 0 SeekCurrent (Ok 4);
         EvFStat 10 (Ok {| Size := 4; Sys := Some {| Dev := 1; Ino := 7 |} |});
         EvStat "app.log"
           (Ok {| Size := 4; Sys := Some {| Dev := 1; Ino := 8 |} |});
         EvOpen "app.log" (Ok 15%nat); EvClose 10; EvNewReader 15 4096 16;
         EvFStat 15 (Ok {| Size := 4; Sys := Some {| Dev := 1; Ino := 8 |} |});
         EvWait None 100000000;
         EvCtxDone false; EvReadString 16 (line "two") None; EvNow 1;
         EvSend 12 {| Text := "two"; Time_ := 1 |} true;
         EvCtxDone false; EvReadString 16 EmptyString (Some io_EOF);
         EvSeek 15 0 SeekCurrent (Ok 4);
         EvFStat 15 (Ok {| Size := 4; Sys := Some {| Dev := 1; Ino := 8 |} |});
         EvStat "app.log"
           (Ok {| Size := 4; Sys := Some {| Dev := 1; Ino := 8 |} |});
         EvReset 16 15; EvWait None 100000000;
         EvCtxDone true;
         EvClose 10; EvCloseChan 12; EvCloseChan 13] /\
      MemFS.shut <$> MemFS.chans w !! 13%nat = Some true /\
      MemFS.closed <$> MemFS.handles w !! 10%nat = Some true /\
      MemFS.closed <$> MemFS.handles w !! 15%nat = Some false
  | None => False
  end.
Proof. vm_compute. repeat split; reflexivity. Qed.

(** ** The theorems at concrete inputs *)

Lemma truncation_rewinds_and_keeps_partial_witness :
  (iteration (pf := unix) MemFS.tailer0 "app.log" defaults
     (MemFS.held "part") MemFS.truncated).1.1
  = inl (MemFS.held "part").
Proof.
  set (w := MemFS.truncated).
  pose (w2 := (MemFS.ReadString 11 LF w).2).
  pose (w3 := (MemFS.Seek 10 0 SeekCurrent w2).2).
  rewrite (truncation_rewinds_and_keeps_partial (os := MemFS.memfs) (pf := unix)
             MemFS.tailer0 "app.log" defaults (MemFS.held "part")
             w w w2 w3 w3 EmptyString 9
             {| Size := 0; Sys := Some {| Dev := 1; Ino := 7 |} |}
             ltac:(vm_compute; reflexivity) ltac:(vm_compute; reflexivity)
             ltac:(vm_compute; reflexivity) ltac:(vm_compute; reflexivity)
             ltac:(simpl; lia)).
  vm_compute. reflexivity.
Defined.

Lemma lines_are_assembled_witness :
  let w := MemFS.tailing "app.log" "ab" 7 0 [[MemFS.Append "app.log" (line "c")]] in
  let evs :=
    [EvCtxDone false; EvReadString 11 "ab" (Some io_EOF);
     EvSeek 10 0 SeekCurrent (Ok 2);
     EvFStat 10 (Ok {| Size := 2; Sys := Some {| Dev := 1; Ino := 7 |} |});
     EvStat "app.log" (Ok {| Size := 2; Sys := Some {| Dev := 1; Ino := 7 |} |});
     EvReset 11 10; EvWait None 100000000; EvCtxDone false;
     EvReadString 11 (line "c") None; EvNow 0;
     EvSend 12 {| Text := "abc"; Time_ := 0 |} true] in
  (tailLoop (pf := unix) 2 MemFS.tailer0 10 11 MemFS.id7 "app.log" defaults w).2
    = evs /\
  sends_assembled EmptyString evs /\
  partialLine (MemFS.held EmptyString) = read_since_terminator EmptyString evs.
Proof.
  intros w evs.
  pose (out := tailLoop (pf := unix) 2 MemFS.tailer0 10 11 MemFS.id7
                 "app.log" defaults w).
  assert (out = (inl (MemFS.held EmptyString), out.1.2, evs)) as E
    by (vm_compute; reflexivity).
  split; [vm_compute; reflexivity|].
  destruct (lines_are_assembled _ _ _ _ _ _ _ _ _ _ _ E) as (Hs & Hp & _).
  split; [assumption | exact (Hp _ eq_refl)].
Defined.

Lemma rotation_reopens_witness :
  let cevs :=
    [EvSeek 10 0 SeekCurrent (Ok 4);
     EvFStat 10 (Ok {| Size := 4; Sys := Some {| Dev := 1; Ino := 7 |} |});
     EvStat "app.log" (Ok {| Size := 0; Sys := Some {| Dev := 1; Ino := 8 |} |});
     EvOpen "app.log" (Ok 15%nat); EvClose 10; EvNewReader 15 4096 16;
     EvFStat 15 (Ok {| Size := 0; Sys := Some {| Dev := 1; Ino := 8 |} |})] in
  (checkFileState (pf := unix) 10 11 MemFS.id7 "app.log"
     MemFS.rotated_away).1.1
    = (15%nat, 16%nat, {| dev := 1; ino := 8 |}, true, None) /\
  ((exists a, In (EvOpen "app.log" a) cevs) <->
   rotated (pf := unix)
     {| Size := 0; Sys := Some {| Dev := 1; Ino := 8 |} |} MemFS.id7) /\
  In (EvClose 10) cevs /\
  (iteration (pf := unix) MemFS.tailer0 "app.log" defaults
     (MemFS.held "old") MemFS.rotated_away).1.1
    = inl {| file := 15; reader := 16; fileID := {| dev := 1; ino := 8 |};
             partialLine := EmptyString |}.
Proof.
  intros cevs.
  set (w := MemFS.rotated_away).
  pose (out := checkFileState (pf := unix) 10 11 MemFS.id7 "app.log" w).
  assert (out = ((15%nat, 16%nat, {| dev := 1; ino := 8 |}, true, None),
                 out.1.2, cevs)) as E by (vm_compute; reflexivity).
  destruct (rotation_reopens (os := MemFS.memfs) (pf := unix) "app.log") as [Hcheck Hloop].
  destruct (Hcheck _ _ _ _ _ _ _ _ _ _ _ E) as (Hiff & Hclose & _).
  split; [vm_compute; reflexivity|].
  split; [apply Hiff; vm_compute; auto 10|].
  split; [apply (Hclose 15%nat); vm_compute; auto 10|].
  rewrite (Hloop MemFS.tailer0 defaults (MemFS.held "old") w w
             (MemFS.ReadString 11 LF w).2 EmptyString _ _ _ None out.1.2 cevs
             ltac:(vm_compute; reflexivity) ltac:(vm_compute; reflexivity)
             ltac:(vm_compute; reflexivity)).
  reflexivity.
Defined.

Lemma no_rotation_without_identity_witness :
  let evs :=
    [EvSeek 10 0 SeekCurrent (Ok 4);
     EvFStat 10 (Ok {| Size := 4; Sys := Some {| Dev := 1; Ino := 7 |} |});
     EvStat "app.log" (Ok {| Size := 0; Sys := Some {| Dev := 1; Ino := 8 |} |})] in
  (checkFileState (pf := windows) 10 11 zeroIdentity "app.log"
     MemFS.rotated_away).2 = evs /\
  (forall p a, ~ In (EvOpen p a) evs) /\
  (forall g, ~ In (EvClose g) evs).
Proof.
  intros evs.
  pose (out := checkFileState (pf := windows) 10 11 zeroIdentity "app.log"
                 MemFS.rotated_away).
  assert (out = ((10%nat, 11%nat, zeroIdentity, false, None), out.1.2, evs)) as E
    by (vm_compute; reflexivity).
  destruct no_rotation_without_identity as (_ & _ & Hwin).
  destruct (Hwin _ _ _ _ _ _ _ _ _ _ _ _ _ _ E) as (_ & _ & _ & _ & Ho & Hc & _).
  split; [vm_compute; reflexivity|]. split; assumption.
Defined.

Lemma transient_failures_are_absorbed_witness :
  (checkFileState (pf := unix) 10 11 MemFS.id7 "app.log"
     MemFS.path_missing).1.1
    = (10%nat, 11%nat, MemFS.id7, false, None) /\
  (iteration (pf := unix) MemFS.tailer0 "app.log" defaults
     (MemFS.held "ab") MemFS.path_missing).1.1
    = inl (MemFS.held "ab") /\
  (checkFileState (pf := unix) 10 11 MemFS.id7 "app.log"
     MemFS.rotated_unreadable).1.1
    = (10%nat, 11%nat, MemFS.id7, false, None) /\
  (forall g,
     ~ In (EvClose g)
         (checkFileState (pf := unix) 10 11 MemFS.id7 "app.log"
            MemFS.rotated_unreadable).2) /\
  (iteration (pf := unix) MemFS.tailer0 "app.log" defaults
     (MemFS.held "ab") MemFS.rotated_unreadable).1.1
    = inl (MemFS.held "ab") /\
  (loop (pf := unix) 2 MemFS.tailer0 "app.log" defaults
     (MemFS.held "ab") MemFS.rotated_unreadable).1.1
    = inl (MemFS.held "ab") /\
  (followTask (pf := unix) MemFS.tailer0 10 11 MemFS.id7 "app.log" defaults 1
     MemFS.rotated_unreadable).1.1
    = None.
Proof.
  set (w := MemFS.path_missing).
  set (u := MemFS.rotated_unreadable).
  pose (out := checkFileState (pf := unix) 10 11 MemFS.id7 "app.log" w).
  pose (out' := checkFileState (pf := unix) 10 11 MemFS.id7 "app.log" u).
  assert (out = (out.1.1, out.1.2, out.2)) as E by (vm_compute; reflexivity).
  assert (out' = (out'.1.1, out'.1.2, out'.2)) as E'
    by (vm_compute; reflexivity).
  assert (transient "app.log" out.2) as T
    by (exists MemFS.ENOENT; left; vm_compute; auto 10).
  assert (transient "app.log" out'.2) as T'
    by (exists MemFS.EACCES; right; vm_compute; auto 10).
  destruct (transient_failures_are_absorbed (os := MemFS.memfs) (pf := unix) "app.log")
    as (Hcheck & Hiter & Hloop & Htask).
  destruct (Hcheck _ _ _ _ _ _ _ E T) as (Hres & _).
  destruct (Hcheck _ _ _ _ _ _ _ E' T') as (Hres' & _ & Hclose & _).
  split; [exact Hres|]. split.
  { rewrite (Hiter MemFS.tailer0 defaults (MemFS.held "ab") w w
               (MemFS.ReadString 11 LF w).2 EmptyString out.1.1 out.1.2 out.2
               ltac:(vm_compute; reflexivity) ltac:(vm_compute; reflexivity)
               ltac:(vm_compute; reflexivity) T).
    reflexivity. }
  split; [exact Hres'|]. split; [exact Hclose|]. split; [|split].
  - rewrite (Hiter MemFS.tailer0 defaults (MemFS.held "ab") u u
               (MemFS.ReadString 11 LF u).2 EmptyString out'.1.1 out'.1.2 out'.2
               ltac:(vm_compute; reflexivity) ltac:(vm_compute; reflexivity)
               ltac:(vm_compute; reflexivity) T').
    reflexivity.
  - rewrite (Hloop 1%nat MemFS.tailer0 defaults (MemFS.held "ab") u u
               (MemFS.ReadString 11 LF u).2 EmptyString out'.1.1 out'.1.2 out'.2
               ltac:(vm_compute; reflexivity) ltac:(vm_compute; reflexivity)
               ltac:(vm_compute; reflexivity) T').
    vm_compute. reflexivity.
  - rewrite (Htask MemFS.tailer0 10%nat 11%nat MemFS.id7 defaults u u
               (MemFS.ReadString 11 LF u).2 EmptyString out'.1.1 out'.1.2 out'.2
               ltac:(vm_compute; reflexivity) ltac:(vm_compute; reflexivity)
               ltac:(vm_compute; reflexivity) T').
    reflexivity.
Defined.

Lemma Follow_open_failure_witness :
  let w := MemFS.disk "app.log" (line "one") 7 [] in
  Follow (pf := unix) "missing.log" [] w =
    ({| tailer := None; failure := Some (Wrapped "tailf: " MemFS.ENOENT);
        started := None |},
     w, [EvOpen "missing.log" (Fail MemFS.ENOENT)]) /\
  Error (Wrapped "tailf: " MemFS.ENOENT) = "tailf: no such file or directory".
Proof.
  intros w.
  destruct (Follow_open_failure (os := MemFS.memfs) (pf := unix) "missing.log" [] w MemFS.ENOENT w
              ltac:(vm_compute; reflexivity)) as (H & He & _).
  split; [exact H | exact He].
Defined.

Lemma cancellation_is_not_an_error_witness :
  let w := MemFS.tailing "app.log" (line "one") 7 4 [[MemFS.Cancel]] in
  let full := MemFS.tailing "app.log" (MemFS.many_lines 65) 7 0 [] in
  (tailLoop (pf := unix) 2 MemFS.tailer0 10 11 MemFS.id7 "app.log" defaults w).1.1
    = inr None /\
  (followTask (pf := unix) MemFS.tailer0 10 11 MemFS.id7 "app.log" defaults 2 w).1.1
    = Some MemFS.tailer0 /\
  err MemFS.tailer0 = None /\
  last (tailLoop (pf := unix) 65 MemFS.tailer0 10 11 MemFS.id7 "app.log"
          defaults full).2
    = Some (EvSend 12 {| Text := "x"; Time_ := 64 |} false) /\
  (None : option error) = None.
Proof.
  intros w full.
  pose (run := tailLoop (pf := unix) 2 MemFS.tailer0 10 11 MemFS.id7
                 "app.log" defaults w).
  pose (task := followTask (pf := unix) MemFS.tailer0 10 11 MemFS.id7
                  "app.log" defaults 2 w).
  pose (blocked := tailLoop (pf := unix) 65 MemFS.tailer0 10 11 MemFS.id7
                     "app.log" defaults full).
  assert (cancel_observed run.2) as C
    by (exists (EvCtxDone true); split; vm_compute; reflexivity).
  assert (cancel_observed blocked.2) as B
    by (exists (EvSend 12 {| Text := "x"; Time_ := 64 |} false);
        split; vm_compute; reflexivity).
  destruct (cancellation_is_not_an_error (os := MemFS.memfs) (pf := unix) 2
              MemFS.tailer0 10 11 MemFS.id7 "app.log" defaults w)
    as [_ Htask].
  destruct (cancellation_is_not_an_error (os := MemFS.memfs) (pf := unix) 65
              MemFS.tailer0 10 11 MemFS.id7 "app.log" defaults full)
    as [Hloop _].
  assert (task = (Some MemFS.tailer0, task.1.2,
                  (run.2 ++ [EvClose 10; EvCloseChan 12; EvCloseChan 13])%list)) as T
    by (vm_compute; reflexivity).
  assert (blocked = (inr None, blocked.1.2, blocked.2)) as E
    by (vm_compute; reflexivity).
  split; [vm_compute; reflexivity|].
  split; [vm_compute; reflexivity|].
  split; [exact (Htask MemFS.tailer0 task.1.2 run.2 T C eq_refl)|].
  split; [vm_compute; reflexivity|].
  exact (Hloop None blocked.1.2 blocked.2 E B).
Defined.

Lemma empty_lines_are_discarded_witness :
  let w := MemFS.tailing "app.log" (line EmptyString) 7 0 [] in
  iteration (pf := unix) MemFS.tailer0 "app.log" defaults (MemFS.held EmptyString) w =
    (inl (MemFS.held EmptyString), (MemFS.ReadString 11 LF w).2,
     [EvCtxDone false; EvReadString 11 (line EmptyString) None]) /\
  Text {| Text := "abc"; Time_ := 0 |} <> EmptyString.
Proof.
  intros w.
  destruct (empty_lines_are_discarded (os := MemFS.memfs) (pf := unix) MemFS.tailer0 "app.log" defaults)
    as (Hiter & _ & Hsent).
  split.
  - apply (Hiter (MemFS.held EmptyString) w w (MemFS.ReadString 11 LF w).2 (line EmptyString));
      vm_compute; reflexivity.
  - pose (w2 := MemFS.tailing "app.log" "ab" 7 0
                  [[MemFS.Append "app.log" (line "c")]]).
    pose (out := tailLoop (pf := unix) 2 MemFS.tailer0 10 11 MemFS.id7
                   "app.log" defaults w2).
    assert (out = (out.1.1, out.1.2, out.2)) as E by (vm_compute; reflexivity).
    apply (Hsent _ _ _ _ _ _ _ _ 12%nat _ true E).
    vm_compute. auto 20.
Defined.

Lemma checkFileState_error_keeps_state_witness :
  (checkFileState (pf := unix) 10 11 MemFS.id7 "app.log"
     MemFS.closed_under).1.1
    = (10%nat, 11%nat, MemFS.id7, false,
       Some (Wrapped "seek error: " MemFS.ErrClosed)) /\
  (10%nat = 10%nat /\ 11%nat = 11%nat /\ MemFS.id7 = MemFS.id7 /\ false = false).
Proof.
  pose (out := checkFileState (pf := unix) 10 11 MemFS.id7 "app.log"
                 MemFS.closed_under).
  assert (out = ((10%nat, 11%nat, MemFS.id7, false,
                  Some (Wrapped "seek error: " MemFS.ErrClosed)),
                 out.1.2, out.2)) as E by (vm_compute; reflexivity).
  split; [vm_compute; reflexivity|].
  exact (checkFileState_error_keeps_state _ _ _ _ _ _ _ _ _ _ _ _ E).
Defined.

(** ** More theorems at concrete inputs *)

Lemma triple_eta {A B C : Type} (x : A * B * C) : x = (x.1.1, x.1.2, x.2).
Proof. destruct x as [[a b] c]. reflexivity. Qed.

Lemma openFile_failure_releases_witness :
  let d := MemFS.disk "app.log" (line "one") 7 [] in
  (openFile (pf := unix) "missing.log" defaults d).1.1
    = (nil_ptr, nil_ptr, zeroIdentity, Some MemFS.ENOENT) /\
  (openFile (pf := unix) "missing.log" defaults d).2
    = [EvOpen "missing.log" (Fail MemFS.ENOENT)] /\
  nil_ptr = nil_ptr /\ zeroIdentity = zeroIdentity.
Proof.
  intros d.
  pose (out := openFile (pf := unix) "missing.log" defaults d).
  assert (out = ((nil_ptr, nil_ptr, zeroIdentity, Some MemFS.ENOENT),
                 out.1.2, out.2)) as E by (vm_compute; reflexivity).
  destruct (openFile_failure_releases (os := MemFS.memfs) (pf := unix)
              _ _ _ _ _ _ _ _ _ E) as (Hf & _ & Hi & _).
  split; [vm_compute; reflexivity|]. split; [vm_compute; reflexivity|].
  split; [exact Hf | exact Hi].
Defined.

Lemma openFile_success_witness :
  let d := MemFS.disk "app.log" (line "one") 7 [] in
  exists info seeks,
    (openFile (pf := unix) "app.log" defaults d).2 =
      (EvOpen "app.log" (Ok 10%nat) :: seeks
         ++ [EvFStat 10 (Ok info); EvNewReader 10 (bufSize defaults) 11])%list /\
    MemFS.id7 = getFileIdentity (Platform := unix) info /\
    (if fromStart defaults then seeks = []
     else exists p, seeks = [EvSeek 10 0 SeekEnd (Ok p)]).
Proof.
  intros d.
  pose (out := openFile (pf := unix) "app.log" defaults d).
  assert (out = ((10%nat, 11%nat, MemFS.id7, None), out.1.2, out.2)) as E
    by (vm_compute; reflexivity).
  exact (openFile_success (os := MemFS.memfs) (pf := unix) _ _ _ _ _ _ _ _ E).
Defined.

Lemma Follow_all_or_nothing_witness :
  let d := MemFS.disk "app.log" (line "one") 7 [] in
  (Follow (pf := unix) "app.log" [] d).2 =
    [EvOpen "app.log" (Ok 10%nat); EvSeek 10 0 SeekEnd (Ok 4);
     EvFStat 10 (Ok {| Size := 4; Sys := Some {| Dev := 1; Ino := 7 |} |});
     EvNewReader 10 4096 11; EvMakeChan 64 12; EvMakeChan 0 13; EvGo] /\
  tailer (Follow (pf := unix) "app.log" [] d).1.1 = Some MemFS.tailer0 /\
  exists f r id e w1 oevs,
    openFile (pf := unix) "app.log" (applied []) d = ((f, r, id, e), w1, oevs).
Proof.
  intros d.
  pose (out := Follow (pf := unix) "app.log" [] d).
  pose proof (triple_eta out) as E.
  destruct (Follow_all_or_nothing (os := MemFS.memfs) (pf := unix)
              _ _ _ _ _ _ E) as (f & r & id & e & w1 & oevs & Ho & _).
  split; [vm_compute; reflexivity|]. split; [vm_compute; reflexivity|].
  exists f, r, id, e, w1, oevs. exact Ho.
Defined.

Lemma Follow_seeks_to_end_unless_fromStart_witness :
  let d := MemFS.disk "app.log" (line "one") 7 [] in
  ((exists off wh a,
      In (EvSeek 10 off wh a) (Follow (pf := unix) "app.log" [] d).2) <->
   fromStart (applied []) = false) /\
  ((exists off wh a,
      In (EvSeek 10 off wh a)
         (Follow (pf := unix) "app.log" [WithFromStart true] d).2) <->
   fromStart (applied [WithFromStart true]) = false).
Proof.
  intros d.
  pose (out := Follow (pf := unix) "app.log" [] d).
  pose (out' := Follow (pf := unix) "app.log" [WithFromStart true] d).
  pose proof (triple_eta out) as E.
  pose proof (triple_eta out') as E'.
  split.
  - apply (Follow_seeks_to_end_unless_fromStart (os := MemFS.memfs)
             (pf := unix) _ _ _ _ _ _ 10%nat E).
    vm_compute. auto.
  - apply (Follow_seeks_to_end_unless_fromStart (os := MemFS.memfs)
             (pf := unix) _ _ _ _ _ _ 10%nat E').
    vm_compute. auto.
Defined.

Lemma getFileIdentity_unix_spec_witness :
  getFileIdentity_unix {| Size := 4; Sys := Some {| Dev := 1; Ino := 7 |} |}
    = {| dev := 1; ino := 7 |} /\
  getFileIdentity_unix {| Size := 4; Sys := Some {| Dev := 1; Ino := 7 |} |}
    = getFileIdentity_unix {| Size := 0; Sys := Some {| Dev := 1; Ino := 7 |} |} /\
  getFileIdentity_unix {| Size := 4; Sys := Some {| Dev := 2 ^ 64; Ino := 0 |} |}
    = zeroIdentity.
Proof.
  destruct getFileIdentity_unix_spec as (_ & Hin & Hsize & Hzero).
  split; [|split].
  - apply (Hin {| Size := 4; Sys := Some {| Dev := 1; Ino := 7 |} |}
                {| Dev := 1; Ino := 7 |} eq_refl); simpl; lia.
  - apply Hsize. reflexivity.
  - apply Hzero. right. exists {| Dev := 2 ^ 64; Ino := 0 |}.
    split; [reflexivity|]. split; reflexivity.
Defined.

Lemma same_identity_is_not_reopened_witness :
  (checkFileState (pf := unix) 10 11 MemFS.id7 "app.log"
     MemFS.cancelled_later).1.1
    = (10%nat, 11%nat, MemFS.id7, false, None) /\
  (forall p a,
     ~ In (EvOpen p a)
          (checkFileState (pf := unix) 10 11 MemFS.id7 "app.log"
             MemFS.cancelled_later).2).
Proof.
  pose (out := checkFileState (pf := unix) 10 11 MemFS.id7 "app.log"
                 MemFS.cancelled_later).
  assert (out = (out.1.1, out.1.2, out.2)) as E by (vm_compute; reflexivity).
  destruct (same_identity_is_not_reopened (os := MemFS.memfs) (pf := unix)
              _ _ _ _ _ _ _ _
              {| Size := 4; Sys := Some {| Dev := 1; Ino := 7 |} |} E
              ltac:(vm_compute; auto) ltac:(vm_compute; reflexivity))
    as (Hres & Hopen & _).
  split; [exact Hres | exact Hopen].
Defined.

Lemma truncation_ends_the_check_witness :
  (forall p b,
     ~ In (EvStat p b)
          (checkFileState (pf := unix) 10 11 MemFS.id7 "app.log"
             MemFS.truncated).2) /\
  In (EvSeek 10 0 SeekStart (Ok 0))
     (checkFileState (pf := unix) 10 11 MemFS.id7 "app.log" MemFS.truncated).2.
Proof.
  pose (out := checkFileState (pf := unix) 10 11 MemFS.id7 "app.log"
                 MemFS.truncated).
  assert (out = (out.1.1, out.1.2, out.2)) as E by (vm_compute; reflexivity).
  assert (In (EvSeek 10 0 SeekStart (Ok 0)) out.2) as Hin
    by (vm_compute; auto).
  destruct (truncation_ends_the_check (os := MemFS.memfs) (pf := unix)
              _ _ _ _ _ _ _ _ _ E Hin) as (Hstat & _).
  split; [exact Hstat | exact Hin].
Defined.

Lemma checkFileState_accounts_for_files_witness :
  let evs := (checkFileState (pf := unix) 10 11 MemFS.id7 "app.log"
                MemFS.rotated_away).2 in
  In (EvOpen "app.log" (Ok 15%nat)) evs /\
  ((15%nat = 15%nat /\ true = true /\ (None : option error) = None) \/
   (In (EvClose 15) evs /\ true = false /\ (None : option error) <> None)).
Proof.
  intros evs.
  pose (out := checkFileState (pf := unix) 10 11 MemFS.id7 "app.log"
                 MemFS.rotated_away).
  assert (out = ((15%nat, 16%nat, {| dev := 1; ino := 8 |}, true, None),
                 out.1.2, out.2)) as E by (vm_compute; reflexivity).
  assert (In (EvOpen "app.log" (Ok 15%nat)) evs) as Hin by (vm_compute; auto 10).
  destruct (checkFileState_accounts_for_files (os := MemFS.memfs) (pf := unix)
              _ _ _ _ _ _ _ _ _ _ _ _ E) as (Hopen & _).
  split; [exact Hin | exact (Hopen 15%nat Hin)].
Defined.

Lemma tailLoop_nil_only_on_cancellation_witness :
  cancel_observed
    (tailLoop (pf := unix) 2 MemFS.tailer0 10 11 MemFS.id7 "app.log" defaults
       MemFS.cancelled_later).2.
Proof.
  pose (out := tailLoop (pf := unix) 2 MemFS.tailer0 10 11 MemFS.id7
                 "app.log" defaults MemFS.cancelled_later).
  assert (out = (inr None, out.1.2, out.2)) as E by (vm_compute; reflexivity).
  exact (tailLoop_nil_only_on_cancellation (os := MemFS.memfs) (pf := unix)
           _ _ _ _ _ _ _ _ _ _ E).
Defined.

Lemma tailLoop_errors_witness :
  exists prefix inner,
    Wrapped "read error: " MemFS.ErrClosed = Wrapped prefix inner /\
    In prefix loop_error_prefixes.
Proof.
  pose (out := tailLoop (pf := unix) 1 MemFS.tailer0 10 11 MemFS.id7
                 "app.log" defaults MemFS.closed_under).
  assert (out = (inr (Some (Wrapped "read error: " MemFS.ErrClosed)),
                 out.1.2, out.2)) as E by (vm_compute; reflexivity).
  destruct (tailLoop_errors (os := MemFS.memfs) (pf := unix)
              _ _ _ _ _ _ _ _ _ _ _ E) as (prefix & inner & He & Hin & _).
  exists prefix, inner. split; [exact He | exact Hin].
Defined.

Lemma sends_are_the_completed_lines_witness :
  let evs := (tailLoop (pf := unix) 2 MemFS.tailer0 10 11 MemFS.id7 "app.log"
                defaults MemFS.appended).2 in
  offered evs = ["abc"] /\ offered evs = completed EmptyString evs.
Proof.
  intros evs.
  pose (out := tailLoop (pf := unix) 2 MemFS.tailer0 10 11 MemFS.id7
                 "app.log" defaults MemFS.appended).
  assert (out = (out.1.1, out.1.2, out.2)) as E by (vm_compute; reflexivity).
  split; [vm_compute; reflexivity|].
  exact (sends_are_the_completed_lines (os := MemFS.memfs) (pf := unix)
           _ _ _ _ _ _ _ _ _ _ _ E).
Defined.

Lemma cancellation_stops_the_loop_witness :
  let out := tailLoop (pf := unix) 2 MemFS.tailer0 10 11 MemFS.id7 "app.log"
               defaults MemFS.cancelled_later in
  last out.2 = Some (EvCtxDone true) /\
  ([] : list Event) = [] /\ out.1.1 = inr None.
Proof.
  intros out.
  assert (out = (out.1.1, out.1.2, out.2)) as E by (vm_compute; reflexivity).
  split; [vm_compute; reflexivity|].
  apply (cancellation_stops_the_loop (os := MemFS.memfs) (pf := unix)
           _ _ _ _ _ _ _ _ _ _ _ (removelast out.2) (EvCtxDone true) [] E);
    vm_compute; reflexivity.
Defined.

Lemma reads_follow_the_cancellation_check_witness :
  exists pre',
    [EvCtxDone false; EvReadString 11 "ab" (Some io_EOF);
     EvSeek 10 0 SeekCurrent (Ok 2);
     EvFStat 10 (Ok {| Size := 2; Sys := Some {| Dev := 1; Ino := 7 |} |});
     EvStat "app.log" (Ok {| Size := 2; Sys := Some {| Dev := 1; Ino := 7 |} |});
     EvReset 11 10; EvWait None 100000000; EvCtxDone false]
    = (pre' ++ [EvCtxDone false])%list.
Proof.
  pose (out := tailLoop (pf := unix) 2 MemFS.tailer0 10 11 MemFS.id7
                 "app.log" defaults MemFS.appended).
  assert (out = (out.1.1, out.1.2, out.2)) as E by (vm_compute; reflexivity).
  apply (reads_follow_the_cancellation_check (os := MemFS.memfs) (pf := unix)
           _ _ _ _ _ _ _ _ _ _ _ _ 11%nat (line "c") None
           [EvNow 0; EvSend 12 {| Text := "abc"; Time_ := 0 |} true] E).
  vm_compute. reflexivity.
Defined.

Lemma waits_between_reads_at_eof_witness :
  exists nch d,
    In (EvWait nch d)
       [EvSeek 10 0 SeekCurrent (Ok 2);
        EvFStat 10 (Ok {| Size := 2; Sys := Some {| Dev := 1; Ino := 7 |} |});
        EvStat "app.log" (Ok {| Size := 2; Sys := Some {| Dev := 1; Ino := 7 |} |});
        EvReset 11 10; EvWait None 100000000; EvCtxDone false].
Proof.
  pose (out := tailLoop (pf := unix) 2 MemFS.tailer0 10 11 MemFS.id7
                 "app.log" defaults MemFS.appended).
  assert (out = (out.1.1, out.1.2, out.2)) as E by (vm_compute; reflexivity).
  apply (waits_between_reads_at_eof (os := MemFS.memfs) (pf := unix)
           _ _ _ _ _ _ _ _ _ _ _ [EvCtxDone false] 11%nat "ab" _
           11%nat (line "c") None
           [EvNow 0; EvSend 12 {| Text := "abc"; Time_ := 0 |} true] E).
  vm_compute. reflexivity.
Defined.

Lemma loop_holds_one_file_witness :
  let evs := (tailLoop (pf := unix) 1 MemFS.tailer0 10 11 MemFS.id7 "app.log"
                defaults MemFS.rotated_away).2 in
  (15%nat = 10%nat \/ In (EvClose 10) evs) /\
  (forall p g, In (EvOpen p (Ok g)) evs -> g = 15%nat \/ In (EvClose g) evs).
Proof.
  intros evs.
  pose (out := tailLoop (pf := unix) 1 MemFS.tailer0 10 11 MemFS.id7
                 "app.log" defaults MemFS.rotated_away).
  assert (out = (inl {| file := 15; reader := 16;
                        fileID := {| dev := 1; ino := 8 |};
                        partialLine := EmptyString |}, out.1.2, out.2)) as E
    by (vm_compute; reflexivity).
  exact (loop_holds_one_file (os := MemFS.memfs) (pf := unix)
           _ _ _ _ _ _ _ _ _ _ _ E).
Defined.

Lemma held_identity_is_of_held_file_witness :
  let evs := (tailLoop (pf := unix) 1 MemFS.tailer0 10 11 MemFS.id7 "app.log"
                defaults MemFS.rotated_away).2 in
  (15%nat = 10%nat /\ 16%nat = 11%nat /\ {| dev := 1; ino := 8 |} = MemFS.id7) \/
  exists info,
    In (EvFStat 15 (Ok info)) evs /\
    {| dev := 1; ino := 8 |} = getFileIdentity (Platform := unix) info.
Proof.
  intros evs.
  pose (out := tailLoop (pf := unix) 1 MemFS.tailer0 10 11 MemFS.id7
                 "app.log" defaults MemFS.rotated_away).
  assert (out = (inl {| file := 15; reader := 16;
                        fileID := {| dev := 1; ino := 8 |};
                        partialLine := EmptyString |}, out.1.2, out.2)) as E
    by (vm_compute; reflexivity).
  exact (held_identity_is_of_held_file (os := MemFS.memfs) (pf := unix)
           _ _ _ _ _ _ _ _ _ _ _ E).
Defined.

Lemma followTask_shutdown_witness :
  exists e wl levs,
    tailLoop (pf := unix) 2 MemFS.tailer0 10 11 MemFS.id7 "app.log" defaults
      MemFS.cancelled_later = (inr e, wl, levs) /\
    (followTask (pf := unix) MemFS.tailer0 10 11 MemFS.id7 "app.log" defaults 2
       MemFS.cancelled_later).2
      = (levs ++ [EvClose 10; EvCloseChan 12; EvCloseChan 13])%list /\
    forallb (only_sends_on 12) levs = true.
Proof.
  pose (out := followTask (pf := unix) MemFS.tailer0 10 11 MemFS.id7
                 "app.log" defaults 2 MemFS.cancelled_later).
  assert (out = (Some MemFS.tailer0, out.1.2, out.2)) as E
    by (vm_compute; reflexivity).
  destruct (followTask_shutdown (os := MemFS.memfs) (pf := unix)
              _ _ _ _ _ _ _ _ _ _ _ E)
    as (e & wl & levs & Hl & Hev & Hs & _).
  exists e, wl, levs. split; [exact Hl|]. split; [exact Hev | exact Hs].
Defined.

Lemma waits_use_the_options_witness :
  (None : option Chan) = notify defaults /\ 100000000 = pollInterval defaults.
Proof.
  pose (out := tailLoop (pf := unix) 2 MemFS.tailer0 10 11 MemFS.id7
                 "app.log" defaults MemFS.appended).
  assert (out = (out.1.1, out.1.2, out.2)) as E by (vm_compute; reflexivity).
  apply (waits_use_the_options (os := MemFS.memfs) (pf := unix)
           _ _ _ _ _ _ _ _ _ _ _ None 100000000 E).
  vm_compute. auto 10.
Defined.

Lemma files_are_switched_at_eof_witness :
  "app.log" = "app.log" /\
  before_open "app.log"
    [EvCtxDone false; EvReadString 11 EmptyString (Some io_EOF);
     EvSeek 10 0 SeekCurrent (Ok 4);
     EvFStat 10 (Ok {| Size := 4; Sys := Some {| Dev := 1; Ino := 7 |} |});
     EvStat "app.log" (Ok {| Size := 0; Sys := Some {| Dev := 1; Ino := 8 |} |})].
Proof.
  pose (out := tailLoop (pf := unix) 1 MemFS.tailer0 10 11 MemFS.id7
                 "app.log" defaults MemFS.rotated_away).
  assert (out = (out.1.1, out.1.2, out.2)) as E by (vm_compute; reflexivity).
  apply (files_are_switched_at_eof (os := MemFS.memfs) (pf := unix)
           _ _ _ _ _ _ _ _ _ _ _ _ "app.log" (Ok 15%nat)
           [EvClose 10; EvNewReader 15 4096 16;
            EvFStat 15 (Ok {| Size := 0; Sys := Some {| Dev := 1; Ino := 8 |} |});
            EvWait None 100000000] E).
  vm_compute. reflexivity.
Defined.

Lemma sent_text_is_trimmed_witness :
  exists pre' rd seg tail,
    [EvCtxDone false; EvReadString 11 "ab" (Some io_EOF);
     EvSeek 10 0 SeekCurrent (Ok 2);
     EvFStat 10 (Ok {| Size := 2; Sys := Some {| Dev := 1; Ino := 7 |} |});
     EvStat "app.log" (Ok {| Size := 2; Sys := Some {| Dev := 1; Ino := 7 |} |});
     EvReset 11 10; EvWait None 100000000; EvCtxDone false;
     EvReadString 11 (line "c") None; EvNow 0]
      = (pre' ++ [EvReadString rd seg None; EvNow 0])%list /\
    read_since_terminator EmptyString pre' +:+ seg = "abc" +:+ tail /\
    all_in CRLF tail = true /\
    "abc" <> EmptyString /\
    ends_in CR "abc" = false /\ ends_in LF "abc" = false.
Proof.
  pose (out := tailLoop (pf := unix) 2 MemFS.tailer0 10 11 MemFS.id7
                 "app.log" defaults MemFS.appended).
  assert (out = (out.1.1, out.1.2, out.2)) as E by (vm_compute; reflexivity).
  apply (sent_text_is_trimmed (os := MemFS.memfs) (pf := unix)
           _ _ _ _ _ _ _ _ _ _ _ _ 12%nat
           {| Text := "abc"; Time_ := 0 |} true [] E).
  vm_compute. reflexivity.
Defined.

Lemma Follow_runs_on_the_options_witness :
  let opts := [WithNotify (Some 5%nat); WithPollInterval 7; WithBufSize 16;
               WithNotify None; WithFromStart true] in
  let out := Follow (pf := unix) "app.log" opts MemFS.rotation_story in
  let task := followTask (pf := unix) MemFS.tailer0 10 11 MemFS.id7 "app.log"
                (applied opts) in
  In (EvNewReader 10 16 11) out.2 /\
  In (EvWait None 7) (task 6%nat out.1.2).2 /\
  In (EvNewReader 15 4096 16) (task 6%nat out.1.2).2 /\
  16 = bufSize (applied opts) /\
  (None = notify (applied opts) /\ 7 = pollInterval (applied opts)) /\
  notify (applied (opts ++ [WithNotify None])) = None.
Proof.
  intros opts out task.
  pose proof (triple_eta out) as E.
  pose proof (triple_eta (task 6%nat out.1.2)) as Et.
  assert (In (EvNewReader 10 16 11) out.2) as Hr by (vm_compute; auto 10).
  assert (In (EvWait None 7) (task 6%nat out.1.2).2) as Hw
    by (vm_compute; auto 20).
  assert (In (EvNewReader 15 4096 16) (task 6%nat out.1.2).2) as Hn
    by (vm_compute; auto 20).
  assert (started out.1.1 = Some task) as Hs by reflexivity.
  destruct (Follow_runs_on_the_options (os := MemFS.memfs) (pf := unix)
              _ _ _ _ _ _ E) as (Hsize & Htask & Hlast & _).
  destruct (Htask _ _ _ _ _ _ Hs Et) as (Hwait & _).
  split; [exact Hr|]. split; [exact Hw|]. split; [exact Hn|].
  split; [exact (Hsize _ _ _ Hr)|]. split; [exact (Hwait _ _ Hw)|].
  exact (Hlast None).
Defined.
